(** * Design patterns in Go: flyweight caches, media adapter, protection proxies

    A shallow embedding of the parts of the demo programs whose behaviour
    the specification talks about:

    - [Flyweight]: the three keyed instance caches of the flyweight demo
      ([TreeTypeFactory], [StyleFactory], [SpriteFactory]) together with the
      context objects that use them ([Forest], [TextEditor],
      [ParticleSystem]);
    - [Adapter]: [MediaAdapter.Play];
    - [Proxy]: [DatabaseProxy], [BankAccountProxy], [ImageProxy],
      [CachedYouTubeProxy] and [LoadBalancerProxy];
    - [Composite]: the file system of files and directories;
    - [Decorator]: the data sources with encryption and compression.

    Go pointers are addresses into an explicit heap, pointer receivers are
    threaded through as explicit values, and console output is a list of the
    chunks written so far. *)

From stdpp Require Import gmap strings list fin_maps pretty.
From Stdlib Require Import Ascii Floats.

Local Open Scope string_scope.
Local Open Scope list_scope.
Local Open Scope nat_scope.

(** ** Shared vocabulary *)

(** The line feed written by [fmt.Println] and by a trailing backslash-n. *)
Definition nl : string := String (Ascii.ascii_of_nat 10) EmptyString.

(** [%t] of package [fmt]. *)
Definition fmt_bool (b : bool) : string := if b then "true" else "false".

(** [%d] of package [fmt]: decimal digits, a leading minus sign for
    negative numbers. *)
Definition fmt_int (n : Z) : string := pretty n.

(** A computation over a world [W]: explicit state passing. *)
Definition State (W A : Type) : Type := W → A * W.

Global Instance State_ret {W} : MRet (State W) := λ A a w, (a, w).

Global Instance State_bind {W} : MBind (State W) :=
  λ A B k m w, let '(a, w') := m w in k a w'.

(** ** The flyweight demo *)

Module Flyweight.

(** *** Descriptors (intrinsic state) *)

Record TreeType := mkTreeType {
  TreeType_name : string;
  TreeType_color : string;
  TreeType_texture : string }.

Record CharacterStyle := mkCharacterStyle {
  CharacterStyle_font : string;
  CharacterStyle_size : Z;
  CharacterStyle_color : string;
  CharacterStyle_bold : bool;
  CharacterStyle_italic : bool }.

Record ParticleSprite := mkParticleSprite {
  ParticleSprite_name : string;
  ParticleSprite_color : string;
  ParticleSprite_width : Z;
  ParticleSprite_height : Z }.

(** *** Memory

    Every [&T{...}] of the demo allocates a fresh cell.  A pointer is the
    index of its cell; cells are never freed and the demo never writes to a
    descriptor after creating it. *)

Inductive Obj :=
  | OTreeType (t : TreeType)
  | OCharacterStyle (s : CharacterStyle)
  | OParticleSprite (s : ParticleSprite).

Definition ptr := nat.

Record World := mkWorld {
  heap : list Obj;
  stdout : list string }.

Abbreviation M := (State World).

Definition new (o : Obj) : M ptr :=
  λ w, (length (heap w), {| heap := heap w ++ [o]; stdout := stdout w |}).

Definition Printf (s : string) : M unit :=
  λ w, (tt, {| heap := heap w; stdout := stdout w ++ [s] |}).

(** *** Trees *)

Definition NewTreeType (name color texture : string) : M ptr :=
  Printf ("[TreeType] Creating new tree type: " +:+ name +:+ " (" +:+ color
          +:+ ", " +:+ texture +:+ ")" +:+ nl) ;;
  new (OTreeType {| TreeType_name := name;
                    TreeType_color := color;
                    TreeType_texture := texture |}).

Record TreeTypeFactory := mkTreeTypeFactory {
  treeTypes : gmap string ptr }.

Definition NewTreeTypeFactory : TreeTypeFactory :=
  {| treeTypes := ∅ |}.

Definition GetTreeType (f : TreeTypeFactory) (name color texture : string)
  : M (ptr * TreeTypeFactory) :=
  let key := name +:+ "-" +:+ color +:+ "-" +:+ texture in
  match treeTypes f !! key with
  | Some treeType =>
      Printf ("[TreeTypeFactory] Reusing existing tree type: " +:+ key +:+ nl) ;;
      mret (treeType, f)
  | None =>
      treeType ← NewTreeType name color texture;
      mret (treeType, {| treeTypes := <[key := treeType]> (treeTypes f) |})
  end.

Definition GetTotalTypes (f : TreeTypeFactory) : Z :=
  Z.of_nat (size (treeTypes f)).

Record Tree := mkTree {
  Tree_x : Z;
  Tree_y : Z;
  Tree_treeType : ptr }.

Definition NewTree (x y : Z) (treeType : ptr) : Tree :=
  {| Tree_x := x; Tree_y := y; Tree_treeType := treeType |}.

Record Forest := mkForest {
  trees : list Tree;
  factory : TreeTypeFactory }.

Definition NewForest : Forest :=
  {| trees := []; factory := NewTreeTypeFactory |}.

Definition PlantTree (f : Forest) (x y : Z) (name color texture : string)
  : M Forest :=
  '(treeType, factory') ← GetTreeType (factory f) name color texture;
  let tree := NewTree x y treeType in
  mret {| trees := trees f ++ [tree]; factory := factory' |}.

(** *** Character styles *)

Definition NewCharacterStyle (font : string) (size : Z) (color : string)
    (bold italic : bool) : M ptr :=
  Printf ("[CharacterStyle] Creating style: " +:+ font +:+ ", "
          +:+ fmt_int size +:+ "pt, " +:+ color) ;;
  (if bold then Printf ", Bold" else mret tt) ;;
  (if italic then Printf ", Italic" else mret tt) ;;
  Printf nl ;;
  new (OCharacterStyle {| CharacterStyle_font := font;
                          CharacterStyle_size := size;
                          CharacterStyle_color := color;
                          CharacterStyle_bold := bold;
                          CharacterStyle_italic := italic |}).

Record StyleFactory := mkStyleFactory {
  styles : gmap string ptr }.

Definition NewStyleFactory : StyleFactory :=
  {| styles := ∅ |}.

Definition GetStyle (f : StyleFactory) (font : string) (size : Z)
    (color : string) (bold italic : bool) : M (ptr * StyleFactory) :=
  let key := font +:+ "-" +:+ fmt_int size +:+ "-" +:+ color +:+ "-"
             +:+ fmt_bool bold +:+ "-" +:+ fmt_bool italic in
  match styles f !! key with
  | Some style =>
      Printf ("[StyleFactory] Reusing style: " +:+ key +:+ nl) ;;
      mret (style, f)
  | None =>
      style ← NewCharacterStyle font size color bold italic;
      mret (style, {| styles := <[key := style]> (styles f) |})
  end.

Definition GetTotalStyles (f : StyleFactory) : Z :=
  Z.of_nat (size (styles f)).

(** *** Particle sprites *)

Definition NewParticleSprite (name color : string) (width height : Z)
  : M ptr :=
  Printf ("[ParticleSprite] Loading sprite: " +:+ name +:+ " (" +:+ color
          +:+ ", " +:+ fmt_int width +:+ "x" +:+ fmt_int height +:+ ")"
          +:+ nl) ;;
  new (OParticleSprite {| ParticleSprite_name := name;
                          ParticleSprite_color := color;
                          ParticleSprite_width := width;
                          ParticleSprite_height := height |}).

Record SpriteFactory := mkSpriteFactory {
  sprites : gmap string ptr }.

Definition NewSpriteFactory : SpriteFactory :=
  {| sprites := ∅ |}.

Definition GetSprite (f : SpriteFactory) (name color : string)
    (width height : Z) : M (ptr * SpriteFactory) :=
  let key := name +:+ "-" +:+ color +:+ "-" +:+ fmt_int width +:+ "-"
             +:+ fmt_int height in
  match sprites f !! key with
  | Some sprite => mret (sprite, f)
  | None =>
      sprite ← NewParticleSprite name color width height;
      mret (sprite, {| sprites := <[key := sprite]> (sprites f) |})
  end.

Definition GetTotalSprites (f : SpriteFactory) : Z :=
  Z.of_nat (size (sprites f)).

Record Particle := mkParticle {
  Particle_x : Z;
  Particle_y : Z;
  Particle_velocity : Z;
  Particle_sprite : ptr }.

Record ParticleSystem := mkParticleSystem {
  particles : list Particle;
  spriteFactory : SpriteFactory }.

Definition NewParticleSystem : ParticleSystem :=
  {| particles := []; spriteFactory := NewSpriteFactory |}.

Definition AddParticle (p : ParticleSystem) (x y velocity : Z)
    (spriteName color : string) : M ParticleSystem :=
  '(sprite, spriteFactory') ← GetSprite (spriteFactory p) spriteName color 16 16;
  let particle := {| Particle_x := x; Particle_y := y;
                     Particle_velocity := velocity;
                     Particle_sprite := sprite |} in
  mret {| particles := particles p ++ [particle];
         spriteFactory := spriteFactory' |}.

(** *** The three factories behind one interface

    The specification describes a single operation, acquire, of which
    [GetTreeType], [GetStyle] and [GetSprite] are three copies.  [Factory F A]
    collects what such a copy consists of: the map field of the factory, the
    key computed from the attributes, the descriptor built on a miss, the
    factory as its constructor returns it, and the method itself. *)

Class Factory (F A : Type) := {
  cache : F → gmap string ptr;
  keyOf : A → string;
  descriptor : A → Obj;
  emptyFactory : F;
  acquire : F → A → M (ptr * F) }.

#[export] Instance TreeType_Factory
  : Factory TreeTypeFactory (string * string * string) := {|
  cache := treeTypes;
  keyOf := λ '(name, color, texture),
    name +:+ "-" +:+ color +:+ "-" +:+ texture;
  descriptor := λ '(name, color, texture),
    OTreeType (mkTreeType name color texture);
  emptyFactory := NewTreeTypeFactory;
  acquire := λ f '(name, color, texture), GetTreeType f name color texture |}.

#[export] Instance Style_Factory
  : Factory StyleFactory (string * Z * string * bool * bool) := {|
  cache := styles;
  keyOf := λ '(font, size, color, bold, italic),
    font +:+ "-" +:+ fmt_int size +:+ "-" +:+ color +:+ "-"
    +:+ fmt_bool bold +:+ "-" +:+ fmt_bool italic;
  descriptor := λ '(font, size, color, bold, italic),
    OCharacterStyle (mkCharacterStyle font size color bold italic);
  emptyFactory := NewStyleFactory;
  acquire := λ f '(font, size, color, bold, italic),
    GetStyle f font size color bold italic |}.

#[export] Instance Sprite_Factory
  : Factory SpriteFactory (string * string * Z * Z) := {|
  cache := sprites;
  keyOf := λ '(name, color, width, height),
    name +:+ "-" +:+ color +:+ "-" +:+ fmt_int width +:+ "-"
    +:+ fmt_int height;
  descriptor := λ '(name, color, width, height),
    OParticleSprite (mkParticleSprite name color width height);
  emptyFactory := NewSpriteFactory;
  acquire := λ f '(name, color, width, height),
    GetSprite f name color width height |}.

(** The pointer, the factory and the world a call leaves behind. *)
Definition handle {F} (r : ptr * F * World) : ptr := r.1.1.
Definition after {F} (r : ptr * F * World) : F := r.1.2.
Definition world {F} (r : ptr * F * World) : World := r.2.

(** A client that calls the method once per request, in order. *)
Fixpoint acquireAll `{Factory F A} (f : F) (reqs : list A)
  : M (list ptr * F) :=
  match reqs with
  | [] => mret ([], f)
  | a :: reqs =>
      '(p, f') ← acquire f a;
      '(ps, f'') ← acquireAll f' reqs;
      mret (p :: ps, f'')
  end.

(** The cache step as the specification words it: the handle stored under
    the key if there is one, otherwise a fresh cell holding the descriptor,
    entered under the key. *)
Definition lookup_or_new (key : string) (o : Obj)
    (h : list Obj) (m : gmap string ptr)
  : ptr * list Obj * gmap string ptr :=
  match m !! key with
  | Some p => (p, h, m)
  | None => (length h, h ++ [o], <[key := length h]> m)
  end.

(** A method refines the cache step when pointer, heap and map agree with
    it on every call. *)
Definition refines_cache F A `{Factory F A} : Prop :=
  ∀ (f : F) (a : A) (w : World),
    (handle (acquire f a w), heap (world (acquire f a w)),
     cache (after (acquire f a w)))
    = lookup_or_new (keyOf a) (descriptor a) (heap w) (cache f).

(** What holds of a factory that only its method has touched: every
    handle in the map points into the heap, and no two keys share one. *)
Definition cache_ok (h : list Obj) (m : gmap string ptr) : Prop :=
  (∀ k p, m !! k = Some p → p < length h)
  ∧ (∀ k1 k2 p, m !! k1 = Some p → m !! k2 = Some p → k1 = k2).

(** The states a factory can be in: fresh, after a call of its method, or
    after the rest of the program has allocated and printed. *)
Inductive reachable `{Factory F A} : F → World → Prop :=
  | reach_new w :
      reachable emptyFactory w
  | reach_acquire f w a :
      reachable f w →
      reachable (after (acquire f a w)) (world (acquire f a w))
  | reach_frame f w w' :
      reachable f w → heap w `prefix_of` heap w' → reachable f w'.

(** Clients of the forest and of the particle system: one call per
    request. *)
Fixpoint plantAll (f : Forest)
    (reqs : list (Z * Z * (string * string * string))) : M Forest :=
  match reqs with
  | [] => mret f
  | (x, y, (name, color, texture)) :: reqs =>
      f' ← PlantTree f x y name color texture;
      plantAll f' reqs
  end.

Fixpoint addAll (p : ParticleSystem)
    (reqs : list (Z * Z * Z * (string * string))) : M ParticleSystem :=
  match reqs with
  | [] => mret p
  | (x, y, velocity, (spriteName, color)) :: reqs =>
      p' ← AddParticle p x y velocity spriteName color;
      addAll p' reqs
  end.

(** The attribute tuple [AddParticle] hands to [GetSprite]. *)
Definition sprite16 (nc : string * string) : string * string * Z * Z :=
  (nc.1, nc.2, 16%Z, 16%Z).

(** *** Drawing the forest

    A method called through a pointer reads the cell behind it.  The
    result [None] stands for the run-time panic of a pointer that is nil or
    does not point to a tree type. *)

Definition Println (s : string) : M unit := Printf (s +:+ nl).

Definition TreeType_Draw (t : TreeType) (x y : Z) : M unit :=
  Printf ("[TreeType] Drawing " +:+ TreeType_name t +:+ " tree at ("
          +:+ fmt_int x +:+ ", " +:+ fmt_int y +:+ ") - Color: "
          +:+ TreeType_color t +:+ ", Texture: " +:+ TreeType_texture t
          +:+ nl).

Definition Tree_Draw (t : Tree) : M (option unit) :=
  λ w, match heap w !! Tree_treeType t with
       | Some (OTreeType treeType) =>
           (TreeType_Draw treeType (Tree_x t) (Tree_y t) ;; mret (Some tt)) w
       | _ => (None, w)
       end.

Fixpoint drawEach (trees : list Tree) : M (option unit) :=
  match trees with
  | [] => mret (Some tt)
  | tree :: trees =>
      Tree_Draw tree ≫= λ drawn : option unit,
      match drawn with
      | Some _ => drawEach trees
      | None => mret None
      end
  end.

Definition Forest_Draw (f : Forest) : M (option unit) :=
  Println (nl +:+ "[Forest] Drawing all trees:") ;;
  drawEach (trees f).

(** *** The text editor

    A [range] loop over a string yields its runes and [WriteRune] appends
    the UTF-8 bytes of a rune; both are parameters.  A style pointer may be
    nil ([None]); [printStyledText] returns [None] for the run-time panic of
    reading through a pointer that is nil or not a style. *)

Record Character := mkCharacter {
  Character_char : Z;
  Character_style : option ptr }.

Record TextEditor := mkTextEditor {
  characters : list Character;
  styleFactory : StyleFactory }.

Definition NewTextEditor : TextEditor :=
  {| characters := []; styleFactory := NewStyleFactory |}.

(** What [printStyledText] writes for a style and a text. *)
Definition styled_text (s : CharacterStyle) (text : string) : M unit :=
  Printf ("[" +:+ CharacterStyle_font s +:+ ", "
          +:+ fmt_int (CharacterStyle_size s) +:+ "pt, "
          +:+ CharacterStyle_color s) ;;
  (if CharacterStyle_bold s then Printf ", Bold" else mret tt) ;;
  (if CharacterStyle_italic s then Printf ", Italic" else mret tt) ;;
  Printf ("]: " +:+ text +:+ nl).

Definition printStyledText (text : string) (style : option ptr)
  : M (option unit) :=
  λ w, match style ≫= (λ p, heap w !! p) with
       | Some (OCharacterStyle s) => (styled_text s text ;; mret (Some tt)) w
       | _ => (None, w)
       end.

Section Runes.

Variable runes_of : string → list Z.
Variable utf8_of : Z → string.

Definition AddText (t : TextEditor) (text font : string) (size : Z)
    (color : string) (bold italic : bool) : M TextEditor :=
  '(style, styleFactory') ←
    GetStyle (styleFactory t) font size color bold italic;
  mret {| characters :=
            fold_left (λ characters char,
                         characters ++ [{| Character_char := char;
                                           Character_style := Some style |}])
                      (runes_of text) (characters t);
          styleFactory := styleFactory' |}.

(** One round of the loop of [Render] on the current style and the
    buffer; [None] when [printStyledText] panicked. *)
Definition Render_char (st : option ptr * string) (char : Character)
  : M (option (option ptr * string)) :=
  if bool_decide (st.1 ≠ Character_style char) then
    (if bool_decide (0 < String.length st.2) then
       printStyledText st.2 st.1 ≫= λ printed : option unit,
       mret (match printed with
             | Some _ => Some EmptyString
             | None => None
             end)
     else mret (Some st.2)) ≫= λ flushed : option string,
    mret (match flushed with
          | Some buffer =>
              Some (Character_style char,
                    buffer +:+ utf8_of (Character_char char))
          | None => None
          end)
  else mret (Some (st.1, st.2 +:+ utf8_of (Character_char char))).

Fixpoint Render_loop (chars : list Character) (st : option ptr * string)
  : M (option (option ptr * string)) :=
  match chars with
  | [] => mret (Some st)
  | char :: chars =>
      Render_char st char ≫= λ next : option (option ptr * string),
      match next with
      | Some st' => Render_loop chars st'
      | None => mret None
      end
  end.

Definition Render (t : TextEditor) : M (option unit) :=
  Println (nl +:+ "[TextEditor] Rendering document:") ;;
  Render_loop (characters t) (None, EmptyString)
    ≫= λ final : option (option ptr * string),
  match final with
  | Some (currentStyle, buffer) =>
      if bool_decide (0 < String.length buffer) then
        printStyledText buffer currentStyle
      else mret (Some tt)
  | None => mret None
  end.

(** A client that adds one text after another. *)
Fixpoint addTexts (t : TextEditor)
    (calls : list (string * (string * Z * string * bool * bool)))
  : M TextEditor :=
  match calls with
  | [] => mret t
  | (text, (font, size, color, bold, italic)) :: calls =>
      t' ← AddText t text font size color bold italic;
      addTexts t' calls
  end.

End Runes.

(** The strings of a list, one after the other. *)
Definition joined (texts : list string) : string :=
  foldr String.append EmptyString texts.

(** What an action writes, seen on an empty console. *)
Definition written (m : M unit) : list string :=
  stdout (m {| heap := []; stdout := [] |}).2.

(** No two neighbours in a list of runs have the same style. *)
Definition adjacent_differ {X Y} (runs : list (X * Y)) : Prop :=
  ∀ i r1 r2, runs !! i = Some r1 → runs !! S i = Some r2 → r1.1 ≠ r2.1.

(** The style that [NewCharacterStyle] builds from the arguments of
    [GetStyle], and the key that [GetStyle] joins from the fields of a
    style. *)
Definition style_of (a : string * Z * string * bool * bool)
  : CharacterStyle :=
  let '(font, size, color, bold, italic) := a in
  mkCharacterStyle font size color bold italic.

Definition CharacterStyle_key (s : CharacterStyle) : string :=
  keyOf (F:=StyleFactory)
        (CharacterStyle_font s, CharacterStyle_size s, CharacterStyle_color s,
         CharacterStyle_bold s, CharacterStyle_italic s).

(** The style that a request is served after the requests [reqs] on a new
    factory: the one built for the first request joined to the same key. *)
Definition served (reqs : list (string * Z * string * bool * bool))
    (a : string * Z * string * bool * bool) : CharacterStyle :=
  match list_find (λ b, keyOf (F:=StyleFactory) b
                        = keyOf (F:=StyleFactory) a) reqs with
  | Some (_, b) => style_of b
  | None => style_of a
  end.

(** The key of the style that a character points to, if it points to
    one. *)
Definition Character_key (h : list Obj) (c : Character) : option string :=
  match Character_style c ≫= (λ p, h !! p) with
  | Some (OCharacterStyle s) => Some (CharacterStyle_key s)
  | _ => None
  end.

(** The loop of [Render] from a state on, followed by the flush after
    the loop. *)
Definition Render_from (utf8_of : Z → string) (chars : list Character)
    (st : option ptr * string) : M (option unit) :=
  Render_loop utf8_of chars st
    ≫= λ final : option (option ptr * string),
  match final with
  | Some (currentStyle, buffer) =>
      if bool_decide (0 < String.length buffer) then
        printStyledText buffer currentStyle
      else mret (Some tt)
  | None => mret None
  end.

(** The runs of a document given as the texts added, each with what it was
    added with: a text joins the run that follows it when both have the
    same key and is a run of its own otherwise; empty texts are skipped.  A
    run keeps what its first text was added with. *)
Definition merge_run {X} (key : X → string) (run : X * string)
    (runs : list (X * string)) : list (X * string) :=
  match runs with
  | (b, text) :: runs' =>
      if bool_decide (key run.1 = key b) then
        (run.1, run.2 +:+ text) :: runs'
      else run :: runs
  | [] => [run]
  end.

Fixpoint document_runs {X} (key : X → string) (texts : list (X * string))
  : list (X * string) :=
  match texts with
  | [] => []
  | (a, text) :: texts =>
      if bool_decide (text = EmptyString) then document_runs key texts
      else merge_run key (a, text) (document_runs key texts)
  end.

(** On text in ASCII the runes of a string are its bytes, and the UTF-8
    encoding of such a rune is the byte itself. *)
Definition ascii_runes_of (s : string) : list Z :=
  (λ c, Z.of_nat (nat_of_ascii c)) <$> String.list_ascii_of_string s.

Definition ascii_utf8_of (r : Z) : string :=
  String (ascii_of_nat (Z.to_nat r)) EmptyString.

End Flyweight.

(** ** The adapter demo *)

Module Adapter.

(** The only state is the console. *)
Abbreviation M := (State (list string)).

Definition Printf (s : string) : M unit :=
  λ out, (tt, out ++ [s]).

(** A Go [error]: [None] is [nil], [Some msg] an error with that message. *)
Definition error := option string.

Definition Errorf (msg : string) : error := Some msg.

(** *** [strings.ToLower]

    The standard library lower-cases a string of ASCII bytes byte by byte
    and hands every other string to [strings.Map(unicode.ToLower, s)].  The
    second is taken as a parameter. *)

Definition is_ascii (c : ascii) : bool := bool_decide (nat_of_ascii c < 128)%nat.

Definition is_upper (c : ascii) : bool :=
  bool_decide (65 ≤ nat_of_ascii c)%nat && bool_decide (nat_of_ascii c ≤ 90)%nat.

Definition lower_byte (c : ascii) : ascii :=
  if is_upper c then ascii_of_nat (nat_of_ascii c + 32) else c.

Fixpoint map_bytes (f : ascii → ascii) (s : string) : string :=
  match s with
  | EmptyString => EmptyString
  | String c s => String (f c) (map_bytes f s)
  end.

Section ToLower.

Variable unicode_ToLower : string → string.

Definition ToLower (s : string) : string :=
  let isASCII := forallb is_ascii (String.list_ascii_of_string s) in
  let hasUpper := existsb is_upper (String.list_ascii_of_string s) in
  if isASCII then
    if negb hasUpper then s else map_bytes lower_byte s
  else unicode_ToLower s.

(** *** The players and the adapter *)

Inductive AudioPlayer : Set := mkAudioPlayer.
Inductive VideoPlayer : Set := mkVideoPlayer.
Inductive VLCPlayer : Set := mkVLCPlayer.

Definition PlayAudio (a : AudioPlayer) (fileName : string) : M unit :=
  Printf ("[AudioPlayer] Playing audio file: " +:+ fileName +:+ nl).

Definition PlayVideo (v : VideoPlayer) (fileName : string) : M unit :=
  Printf ("[VideoPlayer] Playing video file: " +:+ fileName +:+ nl).

Definition PlayVLC (v : VLCPlayer) (fileName : string) : M unit :=
  Printf ("[VLCPlayer] Playing VLC media: " +:+ fileName +:+ nl).

Record MediaAdapter : Set := mkMediaAdapter {
  audioPlayer : AudioPlayer;
  videoPlayer : VideoPlayer;
  vlcPlayer : VLCPlayer }.

Definition NewMediaAdapter : MediaAdapter :=
  {| audioPlayer := mkAudioPlayer;
     videoPlayer := mkVideoPlayer;
     vlcPlayer := mkVLCPlayer |}.

(** A [case] with several values: the tag equals one of them. *)
Definition case_of (tag : string) (values : list string) : bool :=
  existsb (String.eqb tag) values.

Definition Play (m : MediaAdapter) (mediaType fileName : string) : M error :=
  let tag := ToLower mediaType in
  if case_of tag ["mp3"; "wav"; "audio"] then
    PlayAudio (audioPlayer m) fileName ;;
    mret None
  else if case_of tag ["mp4"; "avi"; "video"] then
    PlayVideo (videoPlayer m) fileName ;;
    mret None
  else if case_of tag ["vlc"; "mkv"] then
    PlayVLC (vlcPlayer m) fileName ;;
    mret None
  else
    mret (Errorf ("unsupported media type: " +:+ mediaType)).

End ToLower.

End Adapter.

(** ** The proxy demo *)

Module Proxy.

(** A call either returns or panics; the console keeps what was written
    before the panic. *)
Inductive outcome (A : Type) :=
  | Done (a : A)
  | Panic (msg : string).
Arguments Done {A} a.
Arguments Panic {A} msg.

Definition Exec (A : Type) : Type := list string → outcome A * list string.

#[export] Instance Exec_ret : MRet Exec := λ A a out, (Done a, out).

#[export] Instance Exec_bind : MBind Exec :=
  λ A B k m out,
    match m out with
    | (Done a, out') => k a out'
    | (Panic msg, out') => (Panic msg, out')
    end.

Definition Printf (s : string) : Exec unit :=
  λ out, (Done tt, out ++ [s]).

Definition Println (s : string) : Exec unit :=
  Printf (s +:+ nl).

Definition panic {A} (msg : string) : Exec A :=
  λ out, (Panic msg, out).

(** The slice expression [s[:n]] on a string: the first [n] bytes, and a
    run-time panic when [n] exceeds the length in bytes. *)
Definition slice_to (s : string) (n : nat) : Exec string :=
  if bool_decide (n ≤ String.length s) then mret (String.substring 0 n s)
  else panic ("runtime error: slice bounds out of range [:"
              +:+ fmt_int (Z.of_nat n) +:+ "] with length "
              +:+ fmt_int (Z.of_nat (String.length s))).

(** *** Protection proxy *)

Record RealDatabase := mkRealDatabase {
  connectionString : string }.

Definition NewRealDatabase (connectionString : string) : Exec RealDatabase :=
  Printf ("[RealDatabase] Connecting to database: " +:+ connectionString
          +:+ nl) ;;
  mret {| connectionString := connectionString |}.

Definition RealDatabase_Query (d : RealDatabase) (sql : string)
  : Exec string :=
  Printf ("[RealDatabase] Executing query: " +:+ sql +:+ nl) ;;
  mret "QUERY_RESULT".

Record DatabaseProxy := mkDatabaseProxy {
  userRole : string;
  realDatabase : RealDatabase }.

Definition NewDatabaseProxy (userRole : string) : Exec DatabaseProxy :=
  db ← NewRealDatabase "localhost:5432/mydb";
  mret {| userRole := userRole; realDatabase := db |}.

Definition checkAccess (p : DatabaseProxy) (sql : string) : Exec bool :=
  if String.eqb (userRole p) "admin" then mret true
  else
    let condition : Exec bool :=
      if String.eqb (userRole p) "user" then
        head1 ← slice_to sql 6;
        if String.eqb head1 "SELECT" then mret true
        else
          head2 ← slice_to sql 6;
          mret (String.eqb head2 "select")
      else mret false in
    condition ≫= λ holds : bool,
    if holds then mret true else mret false.

Definition logQuery (p : DatabaseProxy) (sql : string) : Exec unit :=
  Printf ("[DatabaseProxy] Logging query: " +:+ sql +:+ " by user role: "
          +:+ userRole p +:+ nl).

Definition Query (p : DatabaseProxy) (sql : string) : Exec string :=
  Printf (nl +:+ "[DatabaseProxy] User role: " +:+ userRole p
          +:+ " attempting query" +:+ nl) ;;
  checkAccess p sql ≫= λ granted : bool,
  if negb granted then
    Println "[DatabaseProxy] ACCESS DENIED - Insufficient permissions" ;;
    mret "ACCESS_DENIED"
  else
    Println "[DatabaseProxy] Access granted - forwarding to real database" ;;
    result ← RealDatabase_Query (realDatabase p) sql;
    logQuery p sql ;;
    mret result.

(** *** Smart proxy

    Balances and amounts are [float64]: IEEE 754 binary64, as the
    primitive floats are.  The [%.2f] rendering of package [fmt] is a
    parameter. *)

(** Go's [int] on the 64-bit targets. *)
Definition wrap_int (z : Z) : Z := (z + 2 ^ 63) `mod` 2 ^ 64 - 2 ^ 63.

Record RealBankAccount := mkRealBankAccount {
  accountNumber : string;
  balance : float }.

Definition NewRealBankAccount (accountNumber : string) (balance : float)
  : RealBankAccount :=
  {| accountNumber := accountNumber; balance := balance |}.

Definition GetBalance (b : RealBankAccount) : float := balance b.

Record BankAccountProxy := mkBankAccountProxy {
  pin : string;
  realAccount : RealBankAccount;
  attemptCount : Z;
  locked : bool }.

Definition NewBankAccountProxy (accountNumber : string) (balance : float)
    (pin : string) : BankAccountProxy :=
  {| pin := pin;
     realAccount := NewRealBankAccount accountNumber balance;
     attemptCount := 0;
     locked := false |}.

Definition BankAccountProxy_GetBalance (p : BankAccountProxy) : float :=
  GetBalance (realAccount p).

Section Bank.

Variable fmt_2f : float → string.

Definition Withdraw (b : RealBankAccount) (amount : float)
  : Exec (bool * RealBankAccount) :=
  if PrimFloat.leb amount (balance b) then
    let b' := {| accountNumber := accountNumber b;
                 balance := PrimFloat.sub (balance b) amount |} in
    Printf ("[RealBankAccount] Withdrew $" +:+ fmt_2f amount
            +:+ ". New balance: $" +:+ fmt_2f (balance b') +:+ nl) ;;
    mret (true, b')
  else
    Printf ("[RealBankAccount] Insufficient funds. Balance: $"
            +:+ fmt_2f (balance b) +:+ nl) ;;
    mret (false, b).

Definition BankAccountProxy_Withdraw (p : BankAccountProxy) (amount : float)
  : Exec (bool * BankAccountProxy) :=
  '(ok, account) ← Withdraw (realAccount p) amount;
  mret (ok, {| pin := pin p; realAccount := account;
               attemptCount := attemptCount p; locked := locked p |}).

Definition AuthenticateAndWithdraw (p : BankAccountProxy)
    (enteredPin : string) (amount : float) : Exec (bool * BankAccountProxy) :=
  Printf (nl +:+ "[BankAccountProxy] Authentication attempt..." +:+ nl) ;;
  if locked p then
    Println "[BankAccountProxy] Account is LOCKED due to multiple failed attempts" ;;
    mret (false, p)
  else if negb (String.eqb enteredPin (pin p)) then
    let p1 := {| pin := pin p; realAccount := realAccount p;
                 attemptCount := wrap_int (attemptCount p + 1);
                 locked := locked p |} in
    Printf ("[BankAccountProxy] Invalid PIN. Attempt "
            +:+ fmt_int (attemptCount p1) +:+ "/3" +:+ nl) ;;
    if bool_decide (3 ≤ attemptCount p1)%Z then
      let p2 := {| pin := pin p1; realAccount := realAccount p1;
                   attemptCount := attemptCount p1; locked := true |} in
      Println "[BankAccountProxy] Account LOCKED after 3 failed attempts" ;;
      mret (false, p2)
    else
      mret (false, p1)
  else
    Println "[BankAccountProxy] Authentication successful" ;;
    let p1 := {| pin := pin p; realAccount := realAccount p;
                 attemptCount := 0; locked := locked p |} in
    BankAccountProxy_Withdraw p1 amount.

(** A client that makes one attempt after another. *)
Fixpoint attempts (p : BankAccountProxy) (calls : list (string * float))
  : Exec (list bool * BankAccountProxy) :=
  match calls with
  | [] => mret ([], p)
  | (enteredPin, amount) :: calls =>
      '(ok, p') ← AuthenticateAndWithdraw p enteredPin amount;
      '(oks, p'') ← attempts p' calls;
      mret (ok :: oks, p'')
  end.

End Bank.

(** *** Virtual proxy

    [time.Sleep] only passes time and is left out. *)

Record RealImage := mkRealImage {
  RealImage_filename : string }.

Definition loadFromDisk (r : RealImage) : Exec unit :=
  Printf ("[RealImage] Loading image from disk: " +:+ RealImage_filename r
          +:+ " (expensive operation)" +:+ nl) ;;
  Printf ("[RealImage] Image loaded: " +:+ RealImage_filename r +:+ nl).

Definition NewRealImage (filename : string) : Exec RealImage :=
  let image := {| RealImage_filename := filename |} in
  loadFromDisk image ;;
  mret image.

Definition RealImage_Display (r : RealImage) : Exec unit :=
  Printf ("[RealImage] Displaying image: " +:+ RealImage_filename r +:+ nl).

(** [realImage] is a pointer: [None] is [nil]. *)
Record ImageProxy := mkImageProxy {
  ImageProxy_filename : string;
  realImage : option RealImage }.

Definition NewImageProxy (filename : string) : Exec ImageProxy :=
  Printf ("[ImageProxy] Created proxy for: " +:+ filename
          +:+ " (not loaded yet)" +:+ nl) ;;
  mret {| ImageProxy_filename := filename; realImage := None |}.

Definition ImageProxy_Display (p : ImageProxy) : Exec ImageProxy :=
  let loaded : Exec ImageProxy :=
    match realImage p with
    | None =>
        Println "[ImageProxy] First access - loading real image..." ;;
        image ← NewRealImage (ImageProxy_filename p);
        mret {| ImageProxy_filename := ImageProxy_filename p;
                realImage := Some image |}
    | Some _ => mret p
    end in
  p' ← loaded;
  match realImage p' with
  | Some image => RealImage_Display image ;; mret p'
  | None => panic "runtime error: invalid memory address or nil pointer dereference"
  end.

(** A client that displays the image [n] times. *)
Fixpoint displays (p : ImageProxy) (n : nat) : Exec ImageProxy :=
  match n with
  | 0 => mret p
  | S n => p' ← ImageProxy_Display p; displays p' n
  end.

(** *** Caching proxy *)

Inductive YouTubeDownloader : Set := mkYouTubeDownloader.

Definition YouTubeDownloader_Download (y : YouTubeDownloader)
    (videoID : string) : Exec string :=
  Printf ("[YouTubeDownloader] Downloading video " +:+ videoID
          +:+ " from YouTube (slow operation)..." +:+ nl) ;;
  mret ("VIDEO_DATA_" +:+ videoID).

Record CachedYouTubeProxy := mkCachedYouTubeProxy {
  downloader : YouTubeDownloader;
  cache : gmap string string }.

Definition NewCachedYouTubeProxy : CachedYouTubeProxy :=
  {| downloader := mkYouTubeDownloader; cache := ∅ |}.

Definition Download (p : CachedYouTubeProxy) (videoID : string)
  : Exec (string * CachedYouTubeProxy) :=
  Printf (nl +:+ "[CachedYouTubeProxy] Request for video: " +:+ videoID
          +:+ nl) ;;
  match cache p !! videoID with
  | Some cachedData =>
      Printf ("[CachedYouTubeProxy] Cache HIT - returning cached data" +:+ nl) ;;
      mret (cachedData, p)
  | None =>
      Printf ("[CachedYouTubeProxy] Cache MISS - downloading from YouTube"
              +:+ nl) ;;
      data ← YouTubeDownloader_Download (downloader p) videoID;
      let p' := {| downloader := downloader p;
                   cache := <[videoID := data]> (cache p) |} in
      Printf ("[CachedYouTubeProxy] Cached video: " +:+ videoID +:+ nl) ;;
      mret (data, p')
  end.

(** A client that asks for one video after another. *)
Fixpoint downloads (p : CachedYouTubeProxy) (videoIDs : list string)
  : Exec (list string * CachedYouTubeProxy) :=
  match videoIDs with
  | [] => mret ([], p)
  | videoID :: videoIDs =>
      '(data, p') ← Download p videoID;
      '(datas, p'') ← downloads p' videoIDs;
      mret (data :: datas, p'')
  end.

(** *** Remote proxy *)

Record RealServer := mkRealServer {
  RealServer_name : string }.

Definition NewRealServer (name : string) : RealServer :=
  {| RealServer_name := name |}.

Definition RealServer_Request (s : RealServer) (url : string) : Exec string :=
  Printf ("[RealServer " +:+ RealServer_name s +:+ "] Processing request: "
          +:+ url +:+ nl) ;;
  mret ("Response from " +:+ RealServer_name s +:+ " for " +:+ url).

Record LoadBalancerProxy := mkLoadBalancerProxy {
  servers : list RealServer;
  currentIndex : Z }.

Definition NewLoadBalancerProxy : LoadBalancerProxy :=
  {| servers := [NewRealServer "Server-1"; NewRealServer "Server-2";
                 NewRealServer "Server-3"];
     currentIndex := 0 |}.

(** The index expression [s[i]]: a run-time panic outside [0, len(s)).
    The message gives the length of the slice only for an index that is not
    negative. *)
Definition index_at {A} (s : list A) (i : Z) : Exec A :=
  if bool_decide (i < 0)%Z then
    panic ("runtime error: index out of range [" +:+ fmt_int i +:+ "]")
  else
    match s !! Z.to_nat i with
    | Some x => mret x
    | None => panic ("runtime error: index out of range [" +:+ fmt_int i
                     +:+ "] with length " +:+ fmt_int (Z.of_nat (length s)))
    end.

(** The remainder [a % b] of Go: truncated, and a run-time panic for a zero
    divisor. *)
Definition int_rem (a b : Z) : Exec Z :=
  if bool_decide (b = 0)%Z then
    panic "runtime error: integer divide by zero"
  else mret (Z.rem a b).

Definition LoadBalancerProxy_Request (p : LoadBalancerProxy) (url : string)
  : Exec (string * LoadBalancerProxy) :=
  server ← index_at (servers p) (currentIndex p);
  Printf (nl +:+ "[LoadBalancerProxy] Routing request to "
          +:+ RealServer_name server +:+ " (Round-robin)" +:+ nl) ;;
  next ← int_rem (wrap_int (currentIndex p + 1))
                 (Z.of_nat (length (servers p)));
  let p' := {| servers := servers p; currentIndex := next |} in
  response ← RealServer_Request server url;
  mret (response, p').

(** A client that sends one request after another. *)
Fixpoint requests (p : LoadBalancerProxy) (urls : list string)
  : Exec (list string * LoadBalancerProxy) :=
  match urls with
  | [] => mret ([], p)
  | url :: urls =>
      '(response, p') ← LoadBalancerProxy_Request p url;
      '(responses, p'') ← requests p' urls;
      mret (response :: responses, p'')
  end.

(** The number of lines on the console that [YouTubeDownloader.Download]
    wrote. *)
Definition download_lines (out : list string) : nat :=
  length (filter (λ line, String.prefix "[YouTubeDownloader]" line = true)
                 out).

End Proxy.

(** ** The composite demo: the file system

    A component is a file or a directory; the interface value of Go is the
    sum of the two, and a call through the interface is a case distinction.
    The object graph is taken as a tree of values: a component handed to
    [Add] is not changed through another reference afterwards. *)

Module Composite.

Abbreviation M := (State (list string)).

Definition Printf (s : string) : M unit :=
  λ out, (tt, out ++ [s]).

(** The type [int64]. *)
Definition wrap_int64 (z : Z) : Z := (z + 2 ^ 63) `mod` 2 ^ 64 - 2 ^ 63.

Record File := mkFile {
  File_name : string;
  File_size : Z }.

Definition NewFile (name : string) (size : Z) : File :=
  {| File_name := name; File_size := size |}.

Inductive FileSystemComponent :=
  | IsFile (f : File)
  | IsDirectory (d : Directory)
with Directory :=
  | mkDirectory (name : string) (children : list FileSystemComponent).

Definition Directory_name (d : Directory) : string :=
  match d with mkDirectory name _ => name end.

Definition children (d : Directory) : list FileSystemComponent :=
  match d with mkDirectory _ children => children end.

Definition NewDirectory (name : string) : Directory :=
  mkDirectory name [].

Definition File_GetName (f : File) : string := File_name f.

Definition File_GetSize (f : File) : Z := File_size f.

Definition Directory_GetName (d : Directory) : string := Directory_name d.

Definition GetName (c : FileSystemComponent) : string :=
  match c with
  | IsFile f => File_GetName f
  | IsDirectory d => Directory_GetName d
  end.

Fixpoint GetSize (c : FileSystemComponent) : Z :=
  match c with
  | IsFile f => File_GetSize f
  | IsDirectory d => Directory_GetSize d
  end
with Directory_GetSize (d : Directory) : Z :=
  match d with
  | mkDirectory _ children =>
      fold_left (λ totalSize child, wrap_int64 (totalSize + GetSize child))
                children 0%Z
  end.

Definition Add (d : Directory) (component : FileSystemComponent)
  : Directory :=
  mkDirectory (Directory_name d) (children d ++ [component]).

(** The loop of [Remove]: the children without the first one that has the
    name, all of them if none has. *)
Fixpoint remove_named (name : string) (children : list FileSystemComponent)
  : list FileSystemComponent :=
  match children with
  | [] => []
  | child :: rest =>
      if String.eqb (GetName child) name then rest
      else child :: remove_named name rest
  end.

Definition Remove (d : Directory) (component : FileSystemComponent)
  : Directory :=
  mkDirectory (Directory_name d)
              (remove_named (GetName component) (children d)).



(** Observations used to state properties: the sizes of the files below a
    component, in order, and the number of components. *)
Fixpoint file_sizes (c : FileSystemComponent) : list Z :=
  match c with
  | IsFile f => [File_size f]
  | IsDirectory d => Directory_file_sizes d
  end
with Directory_file_sizes (d : Directory) : list Z :=
  match d with
  | mkDirectory _ children => concat (map file_sizes children)
  end.


(** Induction over a component and all the components below it. *)
Section Induction.

Variables (P : FileSystemComponent → Prop) (Q : Directory → Prop).
Hypothesis HFile : ∀ f, P (IsFile f).
Hypothesis HDirectory : ∀ d, Q d → P (IsDirectory d).
Hypothesis Hchildren : ∀ name children,
  Forall P children → Q (mkDirectory name children).

Fixpoint component_induction (c : FileSystemComponent) : P c :=
  match c with
  | IsFile f => HFile f
  | IsDirectory d => HDirectory d (directory_induction d)
  end
with directory_induction (d : Directory) : Q d :=
  match d with
  | mkDirectory name children =>
      Hchildren name children
        ((fix each (cs : list FileSystemComponent) : Forall P cs :=
            match cs with
            | [] => List.Forall_nil P
            | c :: cs =>
                List.Forall_cons P c cs (component_induction c) (each cs)
            end) children)
  end.

End Induction.

(** The sum of a list of sizes, as a mathematical integer. *)
Definition total (sizes : list Z) : Z := foldr Z.add 0%Z sizes.

(** The file system built by the demo's [main]. *)
Definition demo_root : Directory :=
  let home := NewDirectory "home" in
  let home := Add home (IsFile (NewFile "resume.pdf" 2048)) in
  let home := Add home (IsFile (NewFile "photo.jpg" 4096)) in
  let documents := NewDirectory "documents" in
  let documents := Add documents (IsFile (NewFile "report.docx" 8192)) in
  let documents :=
    Add documents (IsFile (NewFile "presentation.pptx" 16384)) in
  let home := Add home (IsDirectory documents) in
  let projects := NewDirectory "projects" in
  let projects := Add projects (IsFile (NewFile "main.go" 1024)) in
  let projects := Add projects (IsFile (NewFile "README.md" 512)) in
  let root := NewDirectory "root" in
  let root := Add root (IsDirectory home) in
  let root := Add root (IsDirectory projects) in
  Add root (IsFile (NewFile "config.txt" 256)).



End Composite.

(** ** The decorator demo: data sources *)

Module Decorator.

Abbreviation M := (State (list string)).

Definition Printf (s : string) : M unit :=
  λ out, (tt, out ++ [s]).

(** *** Package [strings]: prefixes and suffixes

    [s[a:b]] is [String.substring a (b - a) s]. *)

Definition HasPrefix (s pre : string) : bool :=
  bool_decide (String.length pre ≤ String.length s)
  && String.eqb (String.substring 0 (String.length pre) s) pre.

Definition TrimPrefix (s pre : string) : string :=
  if HasPrefix s pre then
    String.substring (String.length pre)
                     (String.length s - String.length pre) s
  else s.

Definition HasSuffix (s suffix : string) : bool :=
  bool_decide (String.length suffix ≤ String.length s)
  && String.eqb (String.substring (String.length s - String.length suffix)
                                  (String.length suffix) s) suffix.

Definition TrimSuffix (s suffix : string) : string :=
  if HasSuffix s suffix then
    String.substring 0 (String.length s - String.length suffix) s
  else s.

(** *** The data sources *)

Record FileDataSource := mkFileDataSource {
  filename : string;
  data : string }.

Definition NewFileDataSource (filename : string) : FileDataSource :=
  {| filename := filename; data := EmptyString |}.

(** A data source is a file or a decorator around a data source; the
    decorators hold nothing but their wrappee. *)
Inductive DataSource :=
  | IsFileDataSource (f : FileDataSource)
  | EncryptionDecorator (wrappee : DataSource)
  | CompressionDecorator (wrappee : DataSource).

Definition NewEncryptionDecorator (source : DataSource) : DataSource :=
  EncryptionDecorator source.

Definition NewCompressionDecorator (source : DataSource) : DataSource :=
  CompressionDecorator source.

Definition FileDataSource_WriteData (f : FileDataSource) (data : string)
  : M FileDataSource :=
  let f' := {| filename := filename f; data := data |} in
  Printf ("[FileDataSource] Writing to " +:+ filename f' +:+ ": " +:+ data
          +:+ nl) ;;
  mret f'.

Definition FileDataSource_ReadData (f : FileDataSource) : M string :=
  Printf ("[FileDataSource] Reading from " +:+ filename f +:+ nl) ;;
  mret (data f).

Definition encrypt (data : string) : string :=
  "ENCRYPTED[" +:+ data +:+ "]".

Definition decrypt (data : string) : string :=
  TrimPrefix (TrimSuffix data "]") "ENCRYPTED[".

Definition compress (data : string) : string :=
  "COMPRESSED[" +:+ data +:+ "]".

Definition decompress (data : string) : string :=
  TrimPrefix (TrimSuffix data "]") "COMPRESSED[".

Fixpoint WriteData (s : DataSource) (data : string) : M DataSource :=
  match s with
  | IsFileDataSource f =>
      f' ← FileDataSource_WriteData f data;
      mret (IsFileDataSource f')
  | EncryptionDecorator wrappee =>
      let encrypted := encrypt data in
      Printf ("[EncryptionDecorator] Encrypting data" +:+ nl) ;;
      wrappee' ← WriteData wrappee encrypted;
      mret (EncryptionDecorator wrappee')
  | CompressionDecorator wrappee =>
      let compressed := compress data in
      Printf ("[CompressionDecorator] Compressing data" +:+ nl) ;;
      wrappee' ← WriteData wrappee compressed;
      mret (CompressionDecorator wrappee')
  end.

Fixpoint ReadData (s : DataSource) : M string :=
  match s with
  | IsFileDataSource f => FileDataSource_ReadData f
  | EncryptionDecorator wrappee =>
      data ← ReadData wrappee;
      Printf ("[EncryptionDecorator] Decrypting data" +:+ nl) ;;
      mret (decrypt data)
  | CompressionDecorator wrappee =>
      data ← ReadData wrappee;
      Printf ("[CompressionDecorator] Decompressing data" +:+ nl) ;;
      mret (decompress data)
  end.

(** The file at the bottom of a stack of decorators. *)
Fixpoint file_of (s : DataSource) : FileDataSource :=
  match s with
  | IsFileDataSource f => f
  | EncryptionDecorator wrappee
  | CompressionDecorator wrappee => file_of wrappee
  end.

End Decorator.

(** * Properties *)

#[local] Set Warnings "-clear-no-such-hyp".

(** ** Strings *)

Module StringFacts.

Lemma append_cons (c : ascii) (a b : string) :
  String c a +:+ b = String c (a +:+ b).
Proof. reflexivity. Qed.

Lemma length_append (a b : string) :
  String.length (a +:+ b) = String.length a + String.length b.
Proof.
  induction a as [|c a IH]; [reflexivity|].
  rewrite append_cons. simpl. by rewrite IH.
Qed.

Lemma substring_all (s : string) : String.substring 0 (String.length s) s = s.
Proof. induction s as [|c s IH]; simpl; congruence. Qed.

Lemma substring_append_l (a b : string) :
  String.substring 0 (String.length a) (a +:+ b) = a.
Proof.
  induction a as [|c a IH]; [by destruct b|].
  rewrite append_cons. simpl. by rewrite IH.
Qed.

Lemma substring_append_r (a b : string) :
  String.substring (String.length a) (String.length b) (a +:+ b) = b.
Proof.
  induction a as [|c a IH]; [apply substring_all|].
  rewrite append_cons. exact IH.
Qed.

Lemma append_assoc (a b c : string) : (a +:+ b) +:+ c = a +:+ (b +:+ c).
Proof.
  induction a as [|x a IH]; [reflexivity|].
  rewrite !append_cons. by rewrite IH.
Qed.

Lemma append_nil_r (a : string) : a +:+ EmptyString = a.
Proof.
  induction a as [|x a IH]; [reflexivity|].
  rewrite append_cons. by rewrite IH.
Qed.

Lemma append_empty_inv (a b : string) :
  a +:+ b = EmptyString → a = EmptyString ∧ b = EmptyString.
Proof. destruct a; [by split|discriminate]. Qed.

End StringFacts.

(** ** The flyweight caches *)

Module FlyweightSpec.
Import Flyweight.

(** *** Each factory method refines the cache step *)

Lemma GetTreeType_refines : refines_cache TreeTypeFactory (string * string * string).
Proof.
  intros f [[name color] texture] w.
  unfold lookup_or_new, handle, after, world; cbn.
  unfold GetTreeType.
  destruct (treeTypes f !! _) as [p|]; reflexivity.
Qed.

Lemma GetStyle_refines :
  refines_cache StyleFactory (string * Z * string * bool * bool).
Proof.
  intros f [[[[font sz] color] bold] italic] w.
  unfold lookup_or_new, handle, after, world; cbn.
  unfold GetStyle.
  destruct (styles f !! _) as [p|]; [reflexivity|].
  destruct bold, italic; reflexivity.
Qed.

Lemma GetSprite_refines :
  refines_cache SpriteFactory (string * string * Z * Z).
Proof.
  intros f [[[name color] width] height] w.
  unfold lookup_or_new, handle, after, world; cbn.
  unfold GetSprite.
  destruct (sprites f !! _) as [p|]; reflexivity.
Qed.

Section Generic.

Context {F A : Type} {FA : Factory F A} (Hrefines : refines_cache F A).

Implicit Types (f : F) (a b : A) (w : World) (p : ptr).

Lemma acquire_hit f a w p :
  cache f !! keyOf a = Some p →
  handle (acquire f a w) = p
  ∧ heap (world (acquire f a w)) = heap w
  ∧ cache (after (acquire f a w)) = cache f.
Proof.
  intros Hk. specialize (Hrefines f a w).
  unfold lookup_or_new in Hrefines. rewrite Hk in Hrefines.
  by simplify_eq.
Qed.

Lemma acquire_miss f a w :
  cache f !! keyOf a = None →
  handle (acquire f a w) = length (heap w)
  ∧ heap (world (acquire f a w)) = heap w ++ [descriptor a]
  ∧ cache (after (acquire f a w)) = <[keyOf a := length (heap w)]> (cache f).
Proof.
  intros Hk. specialize (Hrefines f a w).
  unfold lookup_or_new in Hrefines. rewrite Hk in Hrefines.
  by simplify_eq.
Qed.

Lemma acquire_lookup f a w :
  cache (after (acquire f a w)) !! keyOf a = Some (handle (acquire f a w)).
Proof.
  destruct (cache f !! keyOf a) as [p|] eqn:Hk.
  - destruct (acquire_hit f a w p Hk) as (-> & _ & ->). done.
  - destruct (acquire_miss f a w Hk) as (-> & _ & ->).
    apply lookup_insert_eq.
Qed.

Lemma acquire_subseteq f a w :
  cache f ⊆ cache (after (acquire f a w)).
Proof.
  destruct (cache f !! keyOf a) as [p|] eqn:Hk.
  - by destruct (acquire_hit f a w p Hk) as (_ & _ & ->).
  - destruct (acquire_miss f a w Hk) as (_ & _ & ->).
    by apply insert_subseteq.
Qed.

Lemma acquire_heap_prefix f a w :
  heap w `prefix_of` heap (world (acquire f a w)).
Proof.
  destruct (cache f !! keyOf a) as [p|] eqn:Hk.
  - by destruct (acquire_hit f a w p Hk) as (_ & -> & _).
  - destruct (acquire_miss f a w Hk) as (_ & -> & _).
    by apply prefix_app_r.
Qed.

Lemma acquire_size f a w :
  size (cache (after (acquire f a w))) =
    if cache f !! keyOf a is Some _ then size (cache f)
    else S (size (cache f)).
Proof.
  destruct (cache f !! keyOf a) as [p|] eqn:Hk.
  - by destruct (acquire_hit f a w p Hk) as (_ & _ & ->).
  - destruct (acquire_miss f a w Hk) as (_ & _ & ->).
    by apply map_size_insert_None.
Qed.

Lemma acquire_size_le f a w :
  size (cache (after (acquire f a w))) ≤ size (cache f) + 1.
Proof. rewrite acquire_size. destruct (cache f !! keyOf a); lia. Qed.

Lemma acquire_count f a w :
  Z.of_nat (size (cache (after (acquire f a w)))) =
    (if cache f !! keyOf a is Some _ then Z.of_nat (size (cache f))
     else Z.of_nat (size (cache f)) + 1)%Z.
Proof. rewrite acquire_size. destruct (cache f !! keyOf a); lia. Qed.

(** Cells and entries go together: a call adds as many cells as
    entries. *)
Lemma acquire_balance f a w :
  length (heap (world (acquire f a w))) + size (cache f)
  = length (heap w) + size (cache (after (acquire f a w))).
Proof.
  rewrite acquire_size.
  destruct (cache f !! keyOf a) as [p|] eqn:Hk.
  - by destruct (acquire_hit f a w p Hk) as (_ & -> & _).
  - destruct (acquire_miss f a w Hk) as (_ & -> & _).
    rewrite length_app; simpl; lia.
Qed.

Lemma acquire_dom f a w :
  dom (cache (after (acquire f a w))) = {[keyOf a]} ∪ dom (cache f).
Proof.
  destruct (cache f !! keyOf a) as [p|] eqn:Hk.
  - destruct (acquire_hit f a w p Hk) as (_ & _ & ->).
    assert (keyOf a ∈ dom (cache f)) as Hin by by eapply elem_of_dom_2.
    clear -Hin. set_solver.
  - destruct (acquire_miss f a w Hk) as (_ & _ & ->).
    apply dom_insert_L.
Qed.

(** *** The invariant of a factory *)

Lemma cache_ok_empty h : cache_ok h ∅.
Proof. split; intros *; by rewrite lookup_empty. Qed.

Lemma cache_ok_prefix h h' (m : gmap string ptr) :
  cache_ok h m → h `prefix_of` h' → cache_ok h' m.
Proof.
  intros [Hlt Hinj] Hpre. split; [|done].
  intros k p Hk. apply prefix_length in Hpre.
  specialize (Hlt k p Hk). lia.
Qed.

Lemma acquire_cache_ok f a w :
  cache_ok (heap w) (cache f) →
  cache_ok (heap (world (acquire f a w))) (cache (after (acquire f a w))).
Proof.
  intros Hok.
  destruct (cache f !! keyOf a) as [p|] eqn:Hk.
  - by destruct (acquire_hit f a w p Hk) as (_ & -> & ->).
  - destruct (acquire_miss f a w Hk) as (_ & -> & ->).
    destruct Hok as [Hlt Hinj]. split.
    + intros k p. rewrite length_app; simpl.
      rewrite lookup_insert. case_decide; [intros; simplify_eq; lia|].
      intros Hp. specialize (Hlt k p Hp). lia.
    + intros k1 k2 p. rewrite !lookup_insert.
      repeat case_decide; intros Hp1 Hp2; simplify_eq; try done.
      * specialize (Hlt _ _ Hp2). lia.
      * specialize (Hlt _ _ Hp1). lia.
      * eauto.
Qed.

Lemma reachable_cache_ok f w :
  cache (emptyFactory (F:=F)) = ∅ →
  reachable f w → cache_ok (heap w) (cache f).
Proof.
  intros Hempty Hreach. induction Hreach.
  - rewrite Hempty. apply cache_ok_empty.
  - by apply acquire_cache_ok.
  - by eapply cache_ok_prefix.
Qed.

(** *** Two calls in a row *)

Lemma acquire_again f a w :
  let r1 := acquire f a w in
  let r2 := acquire (after r1) a (world r1) in
  handle r2 = handle r1
  ∧ heap (world r2) = heap (world r1)
  ∧ cache (after r2) = cache (after r1).
Proof.
  intros r1 r2.
  exact (acquire_hit (after r1) a (world r1) _ (acquire_lookup f a w)).
Qed.

Lemma acquire_other f a b w :
  cache_ok (heap w) (cache f) →
  keyOf a ≠ keyOf b →
  let ra := acquire f a w in
  let rb := acquire (after ra) b (world ra) in
  handle ra ≠ handle rb.
Proof.
  intros Hok Hne ra rb.
  pose proof (acquire_lookup f a w) as Ha.
  pose proof (acquire_cache_ok f a w Hok) as [Hlt Hinj].
  fold ra in Ha, Hlt, Hinj.
  destruct (cache (after ra) !! keyOf b) as [p|] eqn:Hb.
  - destruct (acquire_hit (after ra) b (world ra) p Hb) as (Hp & _ & _).
    fold rb in Hp. rewrite Hp. intros Heq. rewrite Heq in Ha.
    apply Hne. by eapply Hinj.
  - destruct (acquire_miss (after ra) b (world ra) Hb) as (Hp & _ & _).
    fold rb in Hp. rewrite Hp. specialize (Hlt _ _ Ha). lia.
Qed.

(** *** Any number of calls *)

Lemma acquireAll_cons f a reqs w :
  acquireAll f (a :: reqs) w =
    let r := acquire f a w in
    let rs := acquireAll (after r) reqs (world r) in
    (handle r :: rs.1.1, rs.1.2, rs.2).
Proof.
  cbn. unfold handle, after, world, mbind, State_bind, mret, State_ret.
  destruct (acquire f a w) as [[p f'] w']; cbn.
  by destruct (acquireAll f' reqs w') as [[ps f''] w''].
Qed.

Lemma acquireAll_subseteq reqs f w :
  cache f ⊆ cache (acquireAll f reqs w).1.2.
Proof.
  revert f w. induction reqs as [|a reqs IH]; intros f w; [done|].
  rewrite acquireAll_cons; cbn.
  etrans; [apply acquire_subseteq|apply IH].
Qed.

Lemma acquireAll_prefix reqs f w :
  heap w `prefix_of` heap (acquireAll f reqs w).2.
Proof.
  revert f w. induction reqs as [|a reqs IH]; intros f w; [done|].
  rewrite acquireAll_cons; cbn.
  etrans; [apply acquire_heap_prefix|apply IH].
Qed.

Lemma acquireAll_size_le reqs f w :
  size (cache (acquireAll f reqs w).1.2) ≤ size (cache f) + length reqs.
Proof.
  revert f w. induction reqs as [|a reqs IH]; intros f w; [cbn; lia|].
  rewrite acquireAll_cons; cbn.
  specialize (IH (after (acquire f a w)) (world (acquire f a w))).
  pose proof (acquire_size f a w) as Hs.
  destruct (cache f !! keyOf a); lia.
Qed.

Lemma acquireAll_dom reqs f w :
  dom (cache (acquireAll f reqs w).1.2)
  = list_to_set (keyOf <$> reqs) ∪ dom (cache f).
Proof.
  revert f w. induction reqs as [|a reqs IH]; intros f w; [cbn; set_solver|].
  rewrite acquireAll_cons; cbn. rewrite IH, acquire_dom. set_solver.
Qed.

Lemma acquireAll_balance reqs f w :
  length (heap (acquireAll f reqs w).2) + size (cache f)
  = length (heap w) + size (cache (acquireAll f reqs w).1.2).
Proof.
  revert f w. induction reqs as [|a reqs IH]; intros f w; [done|].
  rewrite acquireAll_cons; cbn.
  specialize (IH (after (acquire f a w)) (world (acquire f a w))).
  pose proof (acquire_balance f a w). lia.
Qed.

Lemma acquireAll_cache_ok reqs f w :
  cache_ok (heap w) (cache f) →
  cache_ok (heap (acquireAll f reqs w).2) (cache (acquireAll f reqs w).1.2).
Proof.
  revert f w. induction reqs as [|a reqs IH]; intros f w Hok; [done|].
  rewrite acquireAll_cons; cbn. by apply IH, acquire_cache_ok.
Qed.

Lemma acquireAll_reachable reqs f w :
  reachable f w → reachable (acquireAll f reqs w).1.2 (acquireAll f reqs w).2.
Proof.
  revert f w. induction reqs as [|a reqs IH]; intros f w Hr; [done|].
  rewrite acquireAll_cons; cbn. by apply IH, reach_acquire.
Qed.

(** Every request got the handle that the final map holds for its key. *)
Lemma acquireAll_handles reqs f w :
  Forall2 (λ a p, cache (acquireAll f reqs w).1.2 !! keyOf a = Some p)
          reqs (acquireAll f reqs w).1.1.
Proof.
  revert f w. induction reqs as [|a reqs IH]; intros f w; [constructor|].
  rewrite acquireAll_cons; cbn. constructor; [|apply IH].
  eapply lookup_weaken; [apply acquire_lookup|apply acquireAll_subseteq].
Qed.

(** From an empty factory: as many entries as distinct keys, and as many
    new cells. *)
Lemma acquireAll_fresh reqs f w :
  cache f = ∅ →
  size (cache (acquireAll f reqs w).1.2)
  = size (list_to_set (keyOf <$> reqs) : gset string)
  ∧ length (heap (acquireAll f reqs w).2)
  = length (heap w) + size (list_to_set (keyOf <$> reqs) : gset string).
Proof.
  intros Hf.
  pose proof (acquireAll_dom reqs f w) as Hdom.
  pose proof (acquireAll_balance reqs f w) as Hbal.
  rewrite Hf, dom_empty_L, (right_id_L ∅ (∪)) in Hdom.
  rewrite Hf, map_size_empty in Hbal.
  rewrite <- Hdom, size_dom. lia.
Qed.

End Generic.

Lemma distinct_keys_le (ks : list string) :
  size (list_to_set ks : gset string) ≤ length ks.
Proof.
  induction ks as [|k ks IH]; cbn; [by rewrite size_empty|].
  rewrite size_union_alt, size_singleton.
  assert (list_to_set ks ∖ {[k]} ⊆ (list_to_set ks : gset string)) as Hsub
    by set_solver.
  apply subseteq_size in Hsub. lia.
Qed.



Section Contexts.

(** *** Forests and particle systems go through their factory *)

Lemma PlantTree_acquire f x y name color texture w :
  let r := PlantTree f x y name color texture w in
  let g := GetTreeType (factory f) name color texture w in
  factory r.1 = after g ∧ r.2 = world g
  ∧ trees r.1 = trees f ++ [NewTree x y (handle g)].
Proof.
  unfold PlantTree, handle, after, world; cbn.
  unfold mbind, State_bind.
  by destruct (GetTreeType _ _ _ _ _) as [[p f'] w'].
Qed.

Lemma plantAll_cons x y name color texture reqs f w :
  plantAll f ((x, y, (name, color, texture)) :: reqs) w =
    let r := PlantTree f x y name color texture w in
    plantAll r.1 reqs r.2.
Proof.
  cbn [plantAll]. unfold mbind, State_bind.
  by destruct (PlantTree _ _ _ _ _ _ _) as [f' w'].
Qed.

Lemma plantAll_acquireAll reqs f w :
  let r := plantAll f reqs w in
  let g := acquireAll (factory f) reqs.*2 w in
  factory r.1 = g.1.2 ∧ r.2 = g.2
  ∧ length (trees r.1) = length (trees f) + length reqs.
Proof.
  revert f w.
  induction reqs as [|[[x y] [[name color] texture]] reqs IH]; intros f w.
  { cbn. auto with lia. }
  cbn [fmap list_fmap snd]. rewrite acquireAll_cons, plantAll_cons.
  destruct (PlantTree_acquire f x y name color texture w) as (Hf & Hw & Ht).
  destruct (IH (PlantTree f x y name color texture w).1
               (PlantTree f x y name color texture w).2) as (IHf & IHw & IHt).
  cbn -[acquireAll PlantTree] in *.
  rewrite IHf, IHw, IHt, Ht, Hf, Hw, length_app. cbn. auto with lia.
Qed.

Lemma AddParticle_acquire p x y velocity spriteName color w :
  let r := AddParticle p x y velocity spriteName color w in
  let g := GetSprite (spriteFactory p) spriteName color 16 16 w in
  spriteFactory r.1 = after g ∧ r.2 = world g
  ∧ length (particles r.1) = S (length (particles p)).
Proof.
  unfold AddParticle, handle, after, world; cbn.
  unfold mbind, State_bind.
  destruct (GetSprite _ _ _ _ _) as [[q f'] w']; cbn.
  rewrite length_app; cbn. auto with lia.
Qed.

Lemma addAll_cons x y velocity spriteName color reqs p w :
  addAll p ((x, y, velocity, (spriteName, color)) :: reqs) w =
    let r := AddParticle p x y velocity spriteName color w in
    addAll r.1 reqs r.2.
Proof.
  cbn [addAll]. unfold mbind, State_bind.
  by destruct (AddParticle _ _ _ _ _ _ _) as [p' w'].
Qed.

Lemma addAll_acquireAll reqs p w :
  let r := addAll p reqs w in
  let g := acquireAll (spriteFactory p) (sprite16 <$> reqs.*2) w in
  spriteFactory r.1 = g.1.2 ∧ r.2 = g.2
  ∧ length (particles r.1) = length (particles p) + length reqs.
Proof.
  revert p w.
  induction reqs as [|[[[x y] velocity] [spriteName color]] reqs IH];
    intros p w.
  { cbn. auto with lia. }
  cbn [fmap list_fmap snd sprite16 fst]. rewrite acquireAll_cons, addAll_cons.
  destruct (AddParticle_acquire p x y velocity spriteName color w)
    as (Hf & Hw & Ht).
  destruct (IH (AddParticle p x y velocity spriteName color w).1
               (AddParticle p x y velocity spriteName color w).2)
    as (IHf & IHw & IHt).
  cbn -[acquireAll AddParticle] in *.
  rewrite IHf, IHw, IHt, Ht, Hf, Hw. auto with lia.
Qed.

End Contexts.

(** *** The claims about the caches *)

Lemma TreeTypeFactory_eq (f g : TreeTypeFactory) :
  treeTypes f = treeTypes g → f = g.
Proof. destruct f, g; cbn; congruence. Qed.

Lemma StyleFactory_eq (f g : StyleFactory) : styles f = styles g → f = g.
Proof. destruct f, g; cbn; congruence. Qed.

Lemma SpriteFactory_eq (f g : SpriteFactory) :
  sprites f = sprites g → f = g.
Proof. destruct f, g; cbn; congruence. Qed.

(** C1. For each of the three factories and every attribute tuple, a second
    call right after the first returns the same pointer, allocates nothing
    (the heap is the same), and leaves the factory, hence its number of
    entries, as the first call left it. *)
Theorem acquire_twice_same_handle :
  (∀ (f : TreeTypeFactory) (name color texture : string) (w : World),
     let r1 := GetTreeType f name color texture w in
     let r2 := GetTreeType (after r1) name color texture (world r1) in
     handle r2 = handle r1
     ∧ heap (world r2) = heap (world r1)
     ∧ after r2 = after r1
     ∧ GetTotalTypes (after r2) = GetTotalTypes (after r1))
  ∧ (∀ (f : StyleFactory) (font : string) (sz : Z) (color : string)
       (bold italic : bool) (w : World),
     let r1 := GetStyle f font sz color bold italic w in
     let r2 := GetStyle (after r1) font sz color bold italic (world r1) in
     handle r2 = handle r1
     ∧ heap (world r2) = heap (world r1)
     ∧ after r2 = after r1
     ∧ GetTotalStyles (after r2) = GetTotalStyles (after r1))
  ∧ (∀ (f : SpriteFactory) (name color : string) (width height : Z)
       (w : World),
     let r1 := GetSprite f name color width height w in
     let r2 := GetSprite (after r1) name color width height (world r1) in
     handle r2 = handle r1
     ∧ heap (world r2) = heap (world r1)
     ∧ after r2 = after r1
     ∧ GetTotalSprites (after r2) = GetTotalSprites (after r1)).
Proof.
  split; [|split].
  - intros f name color texture w r1 r2.
    destruct (acquire_again GetTreeType_refines f (name, color, texture) w)
      as (Hp & Hh & Hc).
    assert (after r2 = after r1) as Hf by apply TreeTypeFactory_eq, Hc.
    repeat split; [exact Hp|exact Hh|exact Hf|by rewrite Hf].
  - intros f font sz color bold italic w r1 r2.
    destruct (acquire_again GetStyle_refines f
                (font, sz, color, bold, italic) w) as (Hp & Hh & Hc).
    assert (after r2 = after r1) as Hf by apply StyleFactory_eq, Hc.
    repeat split; [exact Hp|exact Hh|exact Hf|by rewrite Hf].
  - intros f name color width height w r1 r2.
    destruct (acquire_again GetSprite_refines f
                (name, color, width, height) w) as (Hp & Hh & Hc).
    assert (after r2 = after r1) as Hf by apply SpriteFactory_eq, Hc.
    repeat split; [exact Hp|exact Hh|exact Hf|by rewrite Hf].
Qed.

(** C2. On a factory in a reachable state, two calls whose attribute
    tuples differ and whose keys differ return different pointers; each of
    the two calls raises the number of entries by exactly one when its key
    was absent, and leaves it alone otherwise. *)
Theorem distinct_keys_distinct_handles :
  (∀ (f : TreeTypeFactory) (w : World)
       (name1 color1 texture1 name2 color2 texture2 : string),
     let key1 := name1 +:+ "-" +:+ color1 +:+ "-" +:+ texture1 in
     let key2 := name2 +:+ "-" +:+ color2 +:+ "-" +:+ texture2 in
     let r1 := GetTreeType f name1 color1 texture1 w in
     let r2 := GetTreeType (after r1) name2 color2 texture2 (world r1) in
     reachable f w →
     (name1, color1, texture1) ≠ (name2, color2, texture2) →
     key1 ≠ key2 →
     handle r1 ≠ handle r2
     ∧ GetTotalTypes (after r1)
       = (if treeTypes f !! key1 is Some _ then GetTotalTypes f
          else GetTotalTypes f + 1)%Z
     ∧ GetTotalTypes (after r2)
       = (if treeTypes (after r1) !! key2 is Some _
          then GetTotalTypes (after r1)
          else GetTotalTypes (after r1) + 1)%Z)
  ∧ (∀ (f : StyleFactory) (w : World)
       (font1 : string) (sz1 : Z) (color1 : string) (bold1 italic1 : bool)
       (font2 : string) (sz2 : Z) (color2 : string) (bold2 italic2 : bool),
     let key1 := font1 +:+ "-" +:+ fmt_int sz1 +:+ "-" +:+ color1 +:+ "-"
                 +:+ fmt_bool bold1 +:+ "-" +:+ fmt_bool italic1 in
     let key2 := font2 +:+ "-" +:+ fmt_int sz2 +:+ "-" +:+ color2 +:+ "-"
                 +:+ fmt_bool bold2 +:+ "-" +:+ fmt_bool italic2 in
     let r1 := GetStyle f font1 sz1 color1 bold1 italic1 w in
     let r2 := GetStyle (after r1) font2 sz2 color2 bold2 italic2 (world r1) in
     reachable f w →
     (font1, sz1, color1, bold1, italic1)
       ≠ (font2, sz2, color2, bold2, italic2) →
     key1 ≠ key2 →
     handle r1 ≠ handle r2
     ∧ GetTotalStyles (after r1)
       = (if styles f !! key1 is Some _ then GetTotalStyles f
          else GetTotalStyles f + 1)%Z
     ∧ GetTotalStyles (after r2)
       = (if styles (after r1) !! key2 is Some _
          then GetTotalStyles (after r1)
          else GetTotalStyles (after r1) + 1)%Z)
  ∧ (∀ (f : SpriteFactory) (w : World)
       (name1 color1 : string) (width1 height1 : Z)
       (name2 color2 : string) (width2 height2 : Z),
     let key1 := name1 +:+ "-" +:+ color1 +:+ "-" +:+ fmt_int width1
                 +:+ "-" +:+ fmt_int height1 in
     let key2 := name2 +:+ "-" +:+ color2 +:+ "-" +:+ fmt_int width2
                 +:+ "-" +:+ fmt_int height2 in
     let r1 := GetSprite f name1 color1 width1 height1 w in
     let r2 := GetSprite (after r1) name2 color2 width2 height2 (world r1) in
     reachable f w →
     (name1, color1, width1, height1) ≠ (name2, color2, width2, height2) →
     key1 ≠ key2 →
     handle r1 ≠ handle r2
     ∧ GetTotalSprites (after r1)
       = (if sprites f !! key1 is Some _ then GetTotalSprites f
          else GetTotalSprites f + 1)%Z
     ∧ GetTotalSprites (after r2)
       = (if sprites (after r1) !! key2 is Some _
          then GetTotalSprites (after r1)
          else GetTotalSprites (after r1) + 1)%Z).
Proof.
  split; [|split].
  - intros f w name1 color1 texture1 name2 color2 texture2 key1 key2 r1 r2
      Hreach _ Hkeys.
    pose proof (reachable_cache_ok GetTreeType_refines f w eq_refl Hreach)
      as Hok.
    split; [|split].
    + exact (acquire_other GetTreeType_refines f (name1, color1, texture1)
               (name2, color2, texture2) w Hok Hkeys).
    + exact (acquire_count GetTreeType_refines f
               (name1, color1, texture1) w).
    + exact (acquire_count GetTreeType_refines (after r1)
               (name2, color2, texture2) (world r1)).
  - intros f w font1 sz1 color1 bold1 italic1 font2 sz2 color2 bold2 italic2
      key1 key2 r1 r2 Hreach _ Hkeys.
    pose proof (reachable_cache_ok GetStyle_refines f w eq_refl Hreach)
      as Hok.
    split; [|split].
    + exact (acquire_other GetStyle_refines f
               (font1, sz1, color1, bold1, italic1)
               (font2, sz2, color2, bold2, italic2) w Hok Hkeys).
    + exact (acquire_count GetStyle_refines f
               (font1, sz1, color1, bold1, italic1) w).
    + exact (acquire_count GetStyle_refines (after r1)
               (font2, sz2, color2, bold2, italic2) (world r1)).
  - intros f w name1 color1 width1 height1 name2 color2 width2 height2
      key1 key2 r1 r2 Hreach _ Hkeys.
    pose proof (reachable_cache_ok GetSprite_refines f w eq_refl Hreach)
      as Hok.
    split; [|split].
    + exact (acquire_other GetSprite_refines f
               (name1, color1, width1, height1)
               (name2, color2, width2, height2) w Hok Hkeys).
    + exact (acquire_count GetSprite_refines f
               (name1, color1, width1, height1) w).
    + exact (acquire_count GetSprite_refines (after r1)
               (name2, color2, width2, height2) (world r1)).
Qed.

Lemma distinct_keys_distinct_handles_witness :
  let w0 := {| heap := []; stdout := [] |} in
  let r1 := GetTreeType NewTreeTypeFactory "Oak" "Green" "Rough" w0 in
  let r2 := GetTreeType (after r1) "Pine" "Dark Green" "Smooth" (world r1) in
  handle r1 ≠ handle r2
  ∧ GetTotalTypes (after r1) = 1%Z
  ∧ GetTotalTypes (after r2) = 2%Z.
Proof.
  intros w0 r1 r2.
  refine (proj1 distinct_keys_distinct_handles NewTreeTypeFactory w0
            "Oak" "Green" "Rough" "Pine" "Dark Green" "Smooth"
            (reach_new w0) _ _); discriminate.
Defined.

(** C3. The tuples (Red-Oak, Green) and (Red, Oak-Green) are different, yet
    for every texture they are joined to the same key; so, in either order,
    the second of the two requests is served the descriptor of the first:
    same pointer, nothing allocated. *)
Theorem separator_collision :
  ("Red-Oak", "Green") ≠ ("Red", "Oak-Green")
  ∧ ∀ (f : TreeTypeFactory) (texture : string) (w : World),
      "Red-Oak" +:+ "-" +:+ "Green" +:+ "-" +:+ texture
        = "Red" +:+ "-" +:+ "Oak-Green" +:+ "-" +:+ texture
      ∧ (let r1 := GetTreeType f "Red-Oak" "Green" texture w in
         let r2 := GetTreeType (after r1) "Red" "Oak-Green" texture
                     (world r1) in
         handle r2 = handle r1 ∧ heap (world r2) = heap (world r1))
      ∧ (let r1 := GetTreeType f "Red" "Oak-Green" texture w in
         let r2 := GetTreeType (after r1) "Red-Oak" "Green" texture
                     (world r1) in
         handle r2 = handle r1 ∧ heap (world r2) = heap (world r1)).
Proof.
  split; [discriminate|]. intros f texture w.
  split; [reflexivity|]. split; intros r1 r2.
  - pose proof (acquire_lookup GetTreeType_refines f
                  ("Red-Oak", "Green", texture) w) as Hk.
    destruct (acquire_hit GetTreeType_refines (after r1)
                ("Red", "Oak-Green", texture) (world r1) _ Hk)
      as (Hp & Hh & _).
    split; [exact Hp|exact Hh].
  - pose proof (acquire_lookup GetTreeType_refines f
                  ("Red", "Oak-Green", texture) w) as Hk.
    destruct (acquire_hit GetTreeType_refines (after r1)
                ("Red-Oak", "Green", texture) (world r1) _ Hk)
      as (Hp & Hh & _).
    split; [exact Hp|exact Hh].
Qed.

(** C4. A call of a factory method keeps every entry of the map as it was
    (same key, same pointer), keeps every cell of the heap as it was, and
    adds at most one entry; hence after any number of calls the map and the
    heap of the start are still there, and the map has grown by at most the
    number of calls. *)
Theorem cache_only_grows :
  (∀ (f : TreeTypeFactory) (name color texture : string) (w : World),
     let r := GetTreeType f name color texture w in
     treeTypes f ⊆ treeTypes (after r)
     ∧ heap w `prefix_of` heap (world r)
     ∧ size (treeTypes (after r)) ≤ size (treeTypes f) + 1)
  ∧ (∀ (f : StyleFactory) (font : string) (sz : Z) (color : string)
       (bold italic : bool) (w : World),
     let r := GetStyle f font sz color bold italic w in
     styles f ⊆ styles (after r)
     ∧ heap w `prefix_of` heap (world r)
     ∧ size (styles (after r)) ≤ size (styles f) + 1)
  ∧ (∀ (f : SpriteFactory) (name color : string) (width height : Z)
       (w : World),
     let r := GetSprite f name color width height w in
     sprites f ⊆ sprites (after r)
     ∧ heap w `prefix_of` heap (world r)
     ∧ size (sprites (after r)) ≤ size (sprites f) + 1)
  ∧ (∀ (f : TreeTypeFactory) (reqs : list (string * string * string))
       (w : World),
     let r := acquireAll f reqs w in
     treeTypes f ⊆ treeTypes r.1.2
     ∧ heap w `prefix_of` heap r.2
     ∧ size (treeTypes r.1.2) ≤ size (treeTypes f) + length reqs)
  ∧ (∀ (f : StyleFactory) (reqs : list (string * Z * string * bool * bool))
       (w : World),
     let r := acquireAll f reqs w in
     styles f ⊆ styles r.1.2
     ∧ heap w `prefix_of` heap r.2
     ∧ size (styles r.1.2) ≤ size (styles f) + length reqs)
  ∧ (∀ (f : SpriteFactory) (reqs : list (string * string * Z * Z))
       (w : World),
     let r := acquireAll f reqs w in
     sprites f ⊆ sprites r.1.2
     ∧ heap w `prefix_of` heap r.2
     ∧ size (sprites r.1.2) ≤ size (sprites f) + length reqs).
Proof.
  split_and!.
  - intros f name color texture w r. split_and!.
    + exact (acquire_subseteq GetTreeType_refines f (name, color, texture) w).
    + exact (acquire_heap_prefix GetTreeType_refines f
               (name, color, texture) w).
    + exact (acquire_size_le GetTreeType_refines f (name, color, texture) w).
  - intros f font sz color bold italic w r. split_and!.
    + exact (acquire_subseteq GetStyle_refines f
               (font, sz, color, bold, italic) w).
    + exact (acquire_heap_prefix GetStyle_refines f
               (font, sz, color, bold, italic) w).
    + exact (acquire_size_le GetStyle_refines f
               (font, sz, color, bold, italic) w).
  - intros f name color width height w r. split_and!.
    + exact (acquire_subseteq GetSprite_refines f
               (name, color, width, height) w).
    + exact (acquire_heap_prefix GetSprite_refines f
               (name, color, width, height) w).
    + exact (acquire_size_le GetSprite_refines f
               (name, color, width, height) w).
  - intros f reqs w r. split_and!.
    + apply (acquireAll_subseteq GetTreeType_refines).
    + apply (acquireAll_prefix GetTreeType_refines).
    + apply (acquireAll_size_le GetTreeType_refines).
  - intros f reqs w r. split_and!.
    + apply (acquireAll_subseteq GetStyle_refines).
    + apply (acquireAll_prefix GetStyle_refines).
    + apply (acquireAll_size_le GetStyle_refines).
  - intros f reqs w r. split_and!.
    + apply (acquireAll_subseteq GetSprite_refines).
    + apply (acquireAll_prefix GetSprite_refines).
    + apply (acquireAll_size_le GetSprite_refines).
Qed.

(** The plantings of the demo's [main]: eight trees, three tree types. *)
Example main_forest :
  let w0 := {| heap := []; stdout := [] |} in
  let r := plantAll NewForest
             [(10, 20, ("Oak", "Green", "Rough"));
              (30, 40, ("Pine", "Dark Green", "Smooth"));
              (50, 60, ("Oak", "Green", "Rough"));
              (70, 80, ("Birch", "White", "Smooth"));
              (90, 100, ("Pine", "Dark Green", "Smooth"));
              (110, 120, ("Oak", "Green", "Rough"));
              (130, 140, ("Oak", "Green", "Rough"));
              (150, 160, ("Birch", "White", "Smooth"))]%Z w0 in
  length (trees r.1) = 8 ∧ GetTotalTypes (factory r.1) = 3%Z
  ∧ length (heap r.2) = 3.
Proof. vm_compute. auto. Qed.

(** C6. From an empty factory, asking for (Oak, Green, Rough) three times
    and then for (Pine, Dark Green, Smooth) twice leaves a cache of size
    two; the three Oak requests return one and the same pointer (so do the
    two Pine requests, and it is another one). *)
Theorem oak_three_times_pine_twice :
  ∀ w : World,
    let r1 := GetTreeType NewTreeTypeFactory "Oak" "Green" "Rough" w in
    let r2 := GetTreeType (after r1) "Oak" "Green" "Rough" (world r1) in
    let r3 := GetTreeType (after r2) "Oak" "Green" "Rough" (world r2) in
    let r4 := GetTreeType (after r3) "Pine" "Dark Green" "Smooth" (world r3) in
    let r5 := GetTreeType (after r4) "Pine" "Dark Green" "Smooth" (world r4) in
    GetTotalTypes (after r5) = 2%Z
    ∧ size (treeTypes (after r5)) = 2
    ∧ handle r2 = handle r1 ∧ handle r3 = handle r1
    ∧ handle r5 = handle r4 ∧ handle r4 ≠ handle r1.
Proof.
  intros w r1 r2 r3 r4 r5.
  set (oak := ("Oak", "Green", "Rough")).
  set (pine := ("Pine", "Dark Green", "Smooth")).
  destruct (acquire_miss GetTreeType_refines NewTreeTypeFactory oak w eq_refl)
    as (Hp1 & Hh1 & Hc1).
  destruct (acquire_again GetTreeType_refines NewTreeTypeFactory oak w)
    as (Hp2 & Hh2 & Hc2).
  destruct (acquire_again GetTreeType_refines (after r1) oak (world r1))
    as (Hp3 & Hh3 & Hc3).
  destruct (acquire_again GetTreeType_refines (after r3) pine (world r3))
    as (Hp5 & Hh5 & Hc5).
  change (handle r1 = length (heap w)) in Hp1.
  change (heap (world r1) = heap w ++ [descriptor oak]) in Hh1.
  change (treeTypes (after r1) = <[keyOf oak := length (heap w)]> ∅) in Hc1.
  change (handle r2 = handle r1) in Hp2.
  change (heap (world r2) = heap (world r1)) in Hh2.
  change (treeTypes (after r2) = treeTypes (after r1)) in Hc2.
  change (handle r3 = handle r2) in Hp3.
  change (heap (world r3) = heap (world r2)) in Hh3.
  change (treeTypes (after r3) = treeTypes (after r2)) in Hc3.
  change (handle r5 = handle r4) in Hp5.
  change (treeTypes (after r5) = treeTypes (after r4)) in Hc5.
  assert (treeTypes (after r3) !! keyOf pine = None) as Hpine.
  { rewrite Hc3, Hc2, Hc1. by rewrite lookup_insert_ne. }
  destruct (acquire_miss GetTreeType_refines (after r3) pine (world r3) Hpine)
    as (Hp4 & _ & Hc4).
  change (handle r4 = length (heap (world r3))) in Hp4.
  change (treeTypes (after r4)
          = <[keyOf pine := length (heap (world r3))]> (treeTypes (after r3)))
    in Hc4.
  assert (size (treeTypes (after r5)) = 2) as Hsize.
  { rewrite Hc5, Hc4, map_size_insert_None by done.
    rewrite Hc3, Hc2, Hc1, map_size_insert_None by done.
    by rewrite map_size_empty. }
  split_and!; [by unfold GetTotalTypes; rewrite Hsize|done|done|congruence|done|].
  rewrite Hp4, Hh3, Hh2, Hh1, Hp1, length_app. cbn. lia.
Qed.

(** The order of the five requests does not matter. *)
Lemma oak_pine_any_order (reqs : list (string * string * string)) (w : World) :
  let oak := ("Oak", "Green", "Rough") in
  let pine := ("Pine", "Dark Green", "Smooth") in
  let r := acquireAll NewTreeTypeFactory reqs w in
  reqs ≡ₚ [oak; oak; oak; pine; pine] →
  GetTotalTypes r.1.2 = 2%Z
  ∧ ∃ pOak : ptr, Forall2 (λ a p, a = oak → p = pOak) reqs r.1.1.
Proof.
  intros oak pine r Hperm. split.
  - destruct (acquireAll_fresh GetTreeType_refines reqs
                NewTreeTypeFactory w eq_refl) as (Hsize & _).
    unfold GetTotalTypes. fold r in Hsize.
    change (size (treeTypes r.1.2)
            = size (list_to_set (keyOf (F:=TreeTypeFactory) <$> reqs)
                    : gset string)) in Hsize.
    rewrite Hsize, Hperm. by vm_compute.
  - pose proof (acquireAll_handles GetTreeType_refines reqs
                  NewTreeTypeFactory w) as Hall.
    fold r in Hall.
    destruct (cache r.1.2 !! keyOf oak) as [pOak|] eqn:Hoak.
    + exists pOak. eapply Forall2_impl; [exact Hall|].
      cbn beta. intros a p Hp ->. congruence.
    + exists 0. eapply Forall2_impl; [exact Hall|].
      cbn beta. intros a p Hp ->. congruence.
Qed.

(** *** What the shared descriptor holds *)

Section Contents.

Context {F A : Type} {FA : Factory F A} (Hrefines : refines_cache F A).

Implicit Types (f : F) (a b : A) (w : World) (p : ptr).

(** The cell behind the pointer returned: the descriptor of the request on a
    miss, the cell the map already pointed to on a hit. *)
Lemma acquire_cell f a w :
  heap (world (acquire f a w)) !! handle (acquire f a w)
  = match cache f !! keyOf a with
    | Some p => heap w !! p
    | None => Some (descriptor a)
    end.
Proof.
  destruct (cache f !! keyOf a) as [p|] eqn:Hk.
  - by destruct (acquire_hit Hrefines f a w p Hk) as (-> & -> & _).
  - destruct (acquire_miss Hrefines f a w Hk) as (-> & -> & _).
    rewrite lookup_app_r by done. by rewrite Nat.sub_diag.
Qed.

Lemma acquire_describes f a w :
  (∀ k p, cache f !! k = Some p →
          ∃ b, keyOf b = k ∧ heap w !! p = Some (descriptor b)) →
  ∀ k p, cache (after (acquire f a w)) !! k = Some p →
         ∃ b, keyOf b = k
              ∧ heap (world (acquire f a w)) !! p = Some (descriptor b).
Proof.
  intros Hinv k p.
  destruct (cache f !! keyOf a) as [q|] eqn:Hk.
  - destruct (acquire_hit Hrefines f a w q Hk) as (_ & -> & ->). apply Hinv.
  - destruct (acquire_miss Hrefines f a w Hk) as (_ & -> & ->).
    rewrite lookup_insert. case_decide as Hcase.
    + intros [= <-]. exists a. split; [done|].
      rewrite lookup_app_r by done. by rewrite Nat.sub_diag.
    + intros Hp. destruct (Hinv k p Hp) as (b & Hb & Hcell).
      exists b. split; [done|]. by apply lookup_app_l_Some.
Qed.

Lemma reachable_describes f w :
  cache (emptyFactory (F:=F)) = ∅ →
  reachable f w →
  ∀ k p, cache f !! k = Some p →
         ∃ b, keyOf b = k ∧ heap w !! p = Some (descriptor b).
Proof.
  intros Hempty Hreach. induction Hreach as [w|f w a _ IH|f w w' _ IH Hpre].
  - intros k p. by rewrite Hempty, lookup_empty.
  - by apply acquire_describes.
  - intros k p Hp. destruct (IH k p Hp) as (b & Hb & Hcell).
    exists b. split; [done|]. by eapply prefix_lookup_Some.
Qed.

(** After a sequence of calls, an entry of the map is either an entry of
    the start, or points to the descriptor of the first request of the
    sequence that has its key. *)
Lemma acquireAll_first_wins reqs f w k p :
  cache (acquireAll f reqs w).1.2 !! k = Some p →
  match cache f !! k with
  | Some q => p = q
  | None =>
      ∃ j b, reqs !! j = Some b ∧ keyOf b = k
             ∧ (∀ j' b', j' < j → reqs !! j' = Some b' → keyOf b' ≠ k)
             ∧ heap (acquireAll f reqs w).2 !! p = Some (descriptor b)
  end.
Proof.
  revert f w. induction reqs as [|a reqs IH]; intros f w.
  { cbn. intros Hp. by rewrite Hp. }
  rewrite acquireAll_cons; cbn. intros Hp.
  specialize (IH (after (acquire f a w)) (world (acquire f a w)) Hp).
  destruct (cache f !! k) as [q|] eqn:Hk.
  - assert (cache (after (acquire f a w)) !! k = Some q) as Hq.
    { eapply lookup_weaken; [exact Hk|apply (acquire_subseteq Hrefines)]. }
    by rewrite Hq in IH.
  - destruct (decide (keyOf a = k)) as [<-|Hne].
    + rewrite (acquire_lookup Hrefines) in IH. subst p.
      exists 0, a. split_and!; [done..|intros; lia|].
      pose proof (acquire_cell f a w) as Hcell. rewrite Hk in Hcell.
      eapply prefix_lookup_Some; [exact Hcell|].
      apply (acquireAll_prefix Hrefines).
    + assert (cache (after (acquire f a w)) !! k = None) as Hnone.
      { destruct (cache f !! keyOf a) as [q|] eqn:Ha.
        - by destruct (acquire_hit Hrefines f a w q Ha) as (_ & _ & ->).
        - destruct (acquire_miss Hrefines f a w Ha) as (_ & _ & ->).
          by rewrite lookup_insert_ne. }
      rewrite Hnone in IH. destruct IH as (j & b & Hj & Hb & Hfirst & Hcell).
      exists (S j), b. split_and!; [done|done| |done].
      intros [|j'] b' Hlt; cbn; [by intros [= <-]|].
      apply Hfirst. lia.
Qed.

Lemma acquireAll_first_request reqs f w i a p :
  cache f = ∅ →
  reqs !! i = Some a →
  (acquireAll f reqs w).1.1 !! i = Some p →
  ∃ j b, j ≤ i ∧ reqs !! j = Some b ∧ keyOf b = keyOf a
         ∧ (∀ j' b', j' < j → reqs !! j' = Some b' → keyOf b' ≠ keyOf a)
         ∧ heap (acquireAll f reqs w).2 !! p = Some (descriptor b).
Proof.
  intros Hempty Ha Hp.
  pose proof (acquireAll_handles Hrefines reqs f w) as Hall.
  rewrite Forall2_lookup in Hall. specialize (Hall i).
  rewrite Ha, Hp in Hall. inversion Hall as [? ? Hk|]; subst.
  pose proof (acquireAll_first_wins reqs f w _ _ Hk) as Hfirst.
  rewrite Hempty, lookup_empty in Hfirst.
  destruct Hfirst as (j & b & Hj & Hb & Hmin & Hcell).
  exists j, b. split_and!; try done.
  destruct (decide (j ≤ i)) as [|Hgt]; [done|].
  exfalso. apply (Hmin i a); [lia|done|done].
Qed.

End Contents.

(** X11. In a reachable state of its factory, [GetTreeType] returns a
    pointer to a tree type whose name, color and texture are joined to the
    key of the request; it is the tree type of the request itself whenever
    the key was not in the map.  Likewise for [GetStyle] and [GetSprite]. *)
Theorem acquire_returns_descriptor_with_same_key :
  (∀ (f : TreeTypeFactory) (w : World) (name color texture : string),
     let key := name +:+ "-" +:+ color +:+ "-" +:+ texture in
     let r := GetTreeType f name color texture w in
     reachable f w →
     ∃ t : TreeType,
       heap (world r) !! handle r = Some (OTreeType t)
       ∧ TreeType_name t +:+ "-" +:+ TreeType_color t +:+ "-"
         +:+ TreeType_texture t = key
       ∧ (treeTypes f !! key = None → t = mkTreeType name color texture))
  ∧ (∀ (f : StyleFactory) (w : World) (font : string) (sz : Z)
       (color : string) (bold italic : bool),
     let key := font +:+ "-" +:+ fmt_int sz +:+ "-" +:+ color +:+ "-"
                +:+ fmt_bool bold +:+ "-" +:+ fmt_bool italic in
     let r := GetStyle f font sz color bold italic w in
     reachable f w →
     ∃ s : CharacterStyle,
       heap (world r) !! handle r = Some (OCharacterStyle s)
       ∧ CharacterStyle_font s +:+ "-" +:+ fmt_int (CharacterStyle_size s)
         +:+ "-" +:+ CharacterStyle_color s +:+ "-"
         +:+ fmt_bool (CharacterStyle_bold s) +:+ "-"
         +:+ fmt_bool (CharacterStyle_italic s) = key
       ∧ (styles f !! key = None
          → s = mkCharacterStyle font sz color bold italic))
  ∧ (∀ (f : SpriteFactory) (w : World) (name color : string)
       (width height : Z),
     let key := name +:+ "-" +:+ color +:+ "-" +:+ fmt_int width +:+ "-"
                +:+ fmt_int height in
     let r := GetSprite f name color width height w in
     reachable f w →
     ∃ s : ParticleSprite,
       heap (world r) !! handle r = Some (OParticleSprite s)
       ∧ ParticleSprite_name s +:+ "-" +:+ ParticleSprite_color s +:+ "-"
         +:+ fmt_int (ParticleSprite_width s) +:+ "-"
         +:+ fmt_int (ParticleSprite_height s) = key
       ∧ (sprites f !! key = None
          → s = mkParticleSprite name color width height)).
Proof.
  split_and!.
  - intros f w name color texture key r Hreach.
    pose proof (acquire_cell GetTreeType_refines f (name, color, texture) w)
      as Hcell.
    change (heap (world r) !! handle r
            = match treeTypes f !! key with
              | Some p => heap w !! p
              | None => Some (OTreeType (mkTreeType name color texture))
              end) in Hcell.
    destruct (treeTypes f !! key) as [p|] eqn:Hk.
    + destruct (reachable_describes GetTreeType_refines f w eq_refl Hreach
                  key p Hk) as ([[n c] t] & Hkey & Hp).
      exists (mkTreeType n c t). rewrite Hcell. by split_and!.
    + exists (mkTreeType name color texture). by split_and!.
  - intros f w font sz color bold italic key r Hreach.
    pose proof (acquire_cell GetStyle_refines f
                  (font, sz, color, bold, italic) w) as Hcell.
    change (heap (world r) !! handle r
            = match styles f !! key with
              | Some p => heap w !! p
              | None => Some (OCharacterStyle
                                (mkCharacterStyle font sz color bold italic))
              end) in Hcell.
    destruct (styles f !! key) as [p|] eqn:Hk.
    + destruct (reachable_describes GetStyle_refines f w eq_refl Hreach
                  key p Hk) as ([[[[fo si] co] bo] it] & Hkey & Hp).
      exists (mkCharacterStyle fo si co bo it). rewrite Hcell. by split_and!.
    + exists (mkCharacterStyle font sz color bold italic). by split_and!.
  - intros f w name color width height key r Hreach.
    pose proof (acquire_cell GetSprite_refines f
                  (name, color, width, height) w) as Hcell.
    change (heap (world r) !! handle r
            = match sprites f !! key with
              | Some p => heap w !! p
              | None => Some (OParticleSprite
                                (mkParticleSprite name color width height))
              end) in Hcell.
    destruct (sprites f !! key) as [p|] eqn:Hk.
    + destruct (reachable_describes GetSprite_refines f w eq_refl Hreach
                  key p Hk) as ([[[n c] wi] he] & Hkey & Hp).
      exists (mkParticleSprite n c wi he). rewrite Hcell. by split_and!.
    + exists (mkParticleSprite name color width height). by split_and!.
Qed.

Lemma acquire_returns_descriptor_with_same_key_witness :
  let w0 := {| heap := []; stdout := [] |} in
  let key := "Oak" +:+ "-" +:+ "Green" +:+ "-" +:+ "Rough" in
  let r := GetTreeType NewTreeTypeFactory "Oak" "Green" "Rough" w0 in
  ∃ t : TreeType,
    heap (world r) !! handle r = Some (OTreeType t)
    ∧ TreeType_name t +:+ "-" +:+ TreeType_color t +:+ "-"
      +:+ TreeType_texture t = key
    ∧ (treeTypes NewTreeTypeFactory !! key = None
       → t = mkTreeType "Oak" "Green" "Rough").
Proof.
  intros w0 key r.
  exact (proj1 acquire_returns_descriptor_with_same_key NewTreeTypeFactory
           w0 "Oak" "Green" "Rough" (reach_new w0)).
Defined.

(** X12. On a new factory, every request of a sequence of calls gets a
    pointer to the descriptor built from the first request of the sequence
    that is joined to the same key: its own attributes if no earlier request
    has its key, those of the earlier request otherwise. *)
Theorem first_request_decides_descriptor :
  (∀ (reqs : list (string * string * string)) (w : World) (i : nat)
       (a : string * string * string) (p : ptr),
     let r := acquireAll NewTreeTypeFactory reqs w in
     reqs !! i = Some a →
     r.1.1 !! i = Some p →
     ∃ (j : nat) (b : string * string * string),
       j ≤ i ∧ reqs !! j = Some b
       ∧ keyOf (F:=TreeTypeFactory) b = keyOf (F:=TreeTypeFactory) a
       ∧ (∀ j' b', j' < j → reqs !! j' = Some b' →
                   keyOf (F:=TreeTypeFactory) b'
                   ≠ keyOf (F:=TreeTypeFactory) a)
       ∧ heap r.2 !! p = Some (descriptor (F:=TreeTypeFactory) b))
  ∧ (∀ (reqs : list (string * Z * string * bool * bool)) (w : World)
       (i : nat) (a : string * Z * string * bool * bool) (p : ptr),
     let r := acquireAll NewStyleFactory reqs w in
     reqs !! i = Some a →
     r.1.1 !! i = Some p →
     ∃ (j : nat) (b : string * Z * string * bool * bool),
       j ≤ i ∧ reqs !! j = Some b
       ∧ keyOf (F:=StyleFactory) b = keyOf (F:=StyleFactory) a
       ∧ (∀ j' b', j' < j → reqs !! j' = Some b' →
                   keyOf (F:=StyleFactory) b' ≠ keyOf (F:=StyleFactory) a)
       ∧ heap r.2 !! p = Some (descriptor (F:=StyleFactory) b))
  ∧ (∀ (reqs : list (string * string * Z * Z)) (w : World) (i : nat)
       (a : string * string * Z * Z) (p : ptr),
     let r := acquireAll NewSpriteFactory reqs w in
     reqs !! i = Some a →
     r.1.1 !! i = Some p →
     ∃ (j : nat) (b : string * string * Z * Z),
       j ≤ i ∧ reqs !! j = Some b
       ∧ keyOf (F:=SpriteFactory) b = keyOf (F:=SpriteFactory) a
       ∧ (∀ j' b', j' < j → reqs !! j' = Some b' →
                   keyOf (F:=SpriteFactory) b' ≠ keyOf (F:=SpriteFactory) a)
       ∧ heap r.2 !! p = Some (descriptor (F:=SpriteFactory) b)).
Proof.
  split_and!.
  - intros reqs w i a p r.
    by apply (acquireAll_first_request GetTreeType_refines).
  - intros reqs w i a p r.
    by apply (acquireAll_first_request GetStyle_refines).
  - intros reqs w i a p r.
    by apply (acquireAll_first_request GetSprite_refines).
Qed.

(** The two colliding requests of the specification, in a row: the second
    is served the tree type named Red-Oak. *)
Lemma first_request_decides_descriptor_witness :
  let w0 := {| heap := []; stdout := [] |} in
  let reqs := [("Red-Oak", "Green", "Rough"); ("Red", "Oak-Green", "Rough")] in
  let r := acquireAll NewTreeTypeFactory reqs w0 in
  ∃ (j : nat) (b : string * string * string),
    j ≤ 1 ∧ reqs !! j = Some b
    ∧ keyOf (F:=TreeTypeFactory) b = "Red-Oak-Green-Rough"
    ∧ (∀ j' b', j' < j → reqs !! j' = Some b' →
                keyOf (F:=TreeTypeFactory) b' ≠ "Red-Oak-Green-Rough")
    ∧ heap r.2 !! 0 = Some (descriptor (F:=TreeTypeFactory) b).
Proof.
  intros w0 reqs r.
  exact (proj1 first_request_decides_descriptor reqs w0 1
           ("Red", "Oak-Green", "Rough") 0 eq_refl eq_refl).
Defined.

(** *** Drawing *)

Lemma plantAll_trees reqs f w :
  trees (plantAll f reqs w).1
  = trees f ++ zip_with (λ q p, NewTree q.1.1 q.1.2 p) reqs
                        (acquireAll (factory f) reqs.*2 w).1.1.
Proof.
  revert f w.
  induction reqs as [|[[x y] [[name color] texture]] reqs IH]; intros f w.
  { cbn. by rewrite app_nil_r. }
  cbn [fmap list_fmap snd]. rewrite acquireAll_cons, plantAll_cons.
  destruct (PlantTree_acquire f x y name color texture w) as (Hf & Hw & Ht).
  cbn -[acquireAll PlantTree] in *.
  rewrite IH, Ht, Hf, Hw, <- app_assoc. reflexivity.
Qed.

Lemma drawEach_lines (h : list Obj) (ts : list Tree) (lines : list string) :
  Forall2 (λ tree line,
             ∃ t, h !! Tree_treeType tree = Some (OTreeType t)
                  ∧ line = "[TreeType] Drawing " +:+ TreeType_name t
                           +:+ " tree at (" +:+ fmt_int (Tree_x tree)
                           +:+ ", " +:+ fmt_int (Tree_y tree)
                           +:+ ") - Color: " +:+ TreeType_color t
                           +:+ ", Texture: " +:+ TreeType_texture t +:+ nl)
          ts lines →
  ∀ w, heap w = h →
       drawEach ts w = (Some tt, {| heap := h; stdout := stdout w ++ lines |}).
Proof.
  induction 1 as [|tree line ts lines (t & Hcell & ->) _ IH]; intros w Hw.
  - cbn. rewrite app_nil_r. destruct w; cbn in *; by subst.
  - cbn [drawEach]. unfold mbind, State_bind, Tree_Draw.
    rewrite Hw, Hcell.
    unfold TreeType_Draw, Printf, mbind, State_bind, mret, State_ret. cbn.
    rewrite IH by done. cbn. by rewrite <- app_assoc.
Qed.

(** X13. Drawing a forest planted from a list of requests never fails,
    and writes the header followed by one line per tree, in planting order:
    the line shows the position of the request and the name, color and
    texture of the first request of the list that is joined to the same key.
    Where no two different attribute tuples of the list are joined to the
    same key, every tree is drawn with the attributes it was planted
    with. *)
Theorem Forest_Draw_one_line_per_tree :
  ∀ (reqs : list (Z * Z * (string * string * string))) (w : World),
    let r := plantAll NewForest reqs w in
    let line := λ (x y : Z) (a : string * string * string),
      "[TreeType] Drawing " +:+ a.1.1 +:+ " tree at (" +:+ fmt_int x
      +:+ ", " +:+ fmt_int y +:+ ") - Color: " +:+ a.1.2 +:+ ", Texture: "
      +:+ a.2 +:+ nl in
    let shown := λ q : Z * Z * (string * string * string),
      match list_find (λ b, keyOf (F:=TreeTypeFactory) b
                            = keyOf (F:=TreeTypeFactory) q.2) reqs.*2 with
      | Some (_, b) => line q.1.1 q.1.2 b
      | None => EmptyString
      end in
    Forest_Draw r.1 r.2
    = (Some tt,
       {| heap := heap r.2;
          stdout := stdout r.2
                    ++ (nl +:+ "[Forest] Drawing all trees:" +:+ nl)
                       :: (shown <$> reqs) |})
    ∧ ((∀ a b, a ∈ reqs.*2 → b ∈ reqs.*2 →
               keyOf (F:=TreeTypeFactory) a = keyOf (F:=TreeTypeFactory) b →
               a = b) →
       shown <$> reqs = (λ q, line q.1.1 q.1.2 q.2) <$> reqs).
Proof.
  intros reqs w r line shown. split.
  - unfold Forest_Draw, Println, Printf, mbind, State_bind. cbn.
    rewrite (drawEach_lines (heap r.2) (trees r.1) (shown <$> reqs));
      [cbn; by rewrite <- app_assoc| |done].
    pose proof (plantAll_trees reqs NewForest w) as Htrees.
    destruct (plantAll_acquireAll reqs NewForest w) as (_ & Hw & _).
    fold r in Htrees, Hw. cbn [trees NewForest factory app] in Htrees.
    cbn [factory NewForest] in Hw.
    pose proof (Forall2_length _ _ _
                  (acquireAll_handles GetTreeType_refines reqs.*2
                     NewTreeTypeFactory w)) as Hlen.
    rewrite length_fmap in Hlen.
    rewrite Htrees, Hw.
    apply Forall2_same_length_lookup. split.
    { rewrite length_zip_with, length_fmap. lia. }
    intros i tree shown_i Htree Hshown.
    rewrite lookup_zip_with_Some in Htree.
    destruct Htree as ([[x y] a] & p & -> & Hq & Hp).
    rewrite list_lookup_fmap, Hq in Hshown. injection Hshown as <-.
    assert (reqs.*2 !! i = Some a) as Ha
      by (by rewrite list_lookup_fmap, Hq).
    destruct (acquireAll_first_request GetTreeType_refines reqs.*2
                NewTreeTypeFactory w i a p eq_refl Ha Hp)
      as (j & [[name color] texture] & _ & Hj & Hkey & Hmin & Hcell).
    exists (mkTreeType name color texture). split; [exact Hcell|].
    unfold shown. cbn [fst snd].
    assert (list_find (λ b, keyOf (F:=TreeTypeFactory) b
                            = keyOf (F:=TreeTypeFactory) a) reqs.*2
            = Some (j, (name, color, texture))) as ->.
    { apply list_find_Some. split_and!; [done|done|].
      intros j' b' Hb' Hlt. by apply (Hmin j' b'). }
    reflexivity.
  - intros Hinj. apply list_fmap_ext. intros i [[x y] a] Hq.
    unfold shown. cbn [fst snd].
    assert (a ∈ reqs.*2) as Hin.
    { apply list_elem_of_fmap. exists (x, y, a). split; [done|].
      by eapply list_elem_of_lookup_2. }
    destruct (list_find _ reqs.*2) as [[j b]|] eqn:Hfind.
    + apply list_find_Some in Hfind as (Hb & Hkey & _).
      rewrite (Hinj b a); [done| |done|done].
      by eapply list_elem_of_lookup_2.
    + exfalso. apply list_find_None in Hfind.
      rewrite Forall_forall in Hfind. by apply (Hfind a).
Qed.

(** *** The text editor *)

Section TextEditor.

Import StringFacts.

Variable runes_of : string → list Z.
Variable utf8_of : Z → string.

Lemma styled_text_written (s : CharacterStyle) (text : string) (w : World) :
  styled_text s text w
  = (tt, {| heap := heap w;
            stdout := stdout w ++ written (styled_text s text) |}).
Proof.
  unfold written, styled_text, Printf, mbind, State_bind.
  destruct (CharacterStyle_bold s), (CharacterStyle_italic s); cbn;
    by rewrite <- !app_assoc.
Qed.

Lemma printStyledText_ok (h : list Obj) (p : ptr) (s : CharacterStyle)
    (text : string) (w : World) :
  heap w = h → h !! p = Some (OCharacterStyle s) →
  printStyledText text (Some p) w
  = (Some tt, {| heap := h;
                 stdout := stdout w ++ written (styled_text s text) |}).
Proof.
  intros Hw Hp. unfold printStyledText. cbn. rewrite Hw, Hp.
  unfold mbind at 1, State_bind at 1. rewrite styled_text_written.
  by rewrite Hw.
Qed.

Lemma fold_left_snoc {X Y} (f : X → Y) (l : list X) (init : list Y) :
  fold_left (λ acc x, acc ++ [f x]) l init = init ++ (f <$> l).
Proof.
  revert init. induction l as [|x l IH]; intros init; cbn.
  - by rewrite app_nil_r.
  - by rewrite IH, <- app_assoc.
Qed.

Lemma AddText_acquire t text font sz color bold italic w :
  let r := AddText runes_of t text font sz color bold italic w in
  let g := GetStyle (styleFactory t) font sz color bold italic w in
  styleFactory r.1 = after g ∧ r.2 = world g
  ∧ characters r.1
    = characters t
      ++ ((λ char, mkCharacter char (Some (handle g))) <$> runes_of text).
Proof.
  unfold AddText, handle, after, world; cbn.
  unfold mbind, State_bind.
  destruct (GetStyle _ _ _ _ _ _) as [[p f'] w']; cbn.
  by rewrite fold_left_snoc.
Qed.

Lemma addTexts_cons text font sz color bold italic calls t w :
  addTexts runes_of t ((text, (font, sz, color, bold, italic)) :: calls) w =
    let r := AddText runes_of t text font sz color bold italic w in
    addTexts runes_of r.1 calls r.2.
Proof.
  cbn [addTexts]. unfold mbind, State_bind.
  by destruct (AddText _ _ _ _ _ _ _ _ _) as [t' w'].
Qed.

Lemma addTexts_acquireAll calls t w :
  let r := addTexts runes_of t calls w in
  let g := acquireAll (styleFactory t) calls.*2 w in
  styleFactory r.1 = g.1.2 ∧ r.2 = g.2
  ∧ characters r.1
    = characters t
      ++ concat (zip_with
                   (λ call p,
                      (λ char, mkCharacter char (Some p)) <$> runes_of call.1)
                   calls g.1.1).
Proof.
  revert t w.
  induction calls as [|[text [[[[font sz] color] bold] italic]] calls IH];
    intros t w.
  { cbn. by rewrite app_nil_r. }
  cbn [fmap list_fmap snd]. rewrite acquireAll_cons, addTexts_cons.
  destruct (AddText_acquire t text font sz color bold italic w)
    as (Hf & Hw & Hc).
  destruct (IH (AddText runes_of t text font sz color bold italic w).1
               (AddText runes_of t text font sz color bold italic w).2)
    as (IHf & IHw & IHc).
  cbn -[acquireAll AddText] in *.
  rewrite IHf, IHw, IHc, Hc, Hf, Hw, <- app_assoc. done.
Qed.

Lemma joined_app (l k : list string) :
  joined (l ++ k) = joined l +:+ joined k.
Proof.
  induction l as [|x l IH]; [reflexivity|].
  cbn [app]. unfold joined in *. cbn [foldr]. by rewrite IH, append_assoc.
Qed.

Lemma length_pos_nonempty (s : string) :
  0 < String.length s ↔ s ≠ EmptyString.
Proof. destruct s; cbn; split; (done || lia). Qed.

(** Runs *)

Lemma merge_run_same {X} (key : X → string) (a b : X) (buf text : string)
    (runs : list (X * string)) :
  key a = key b →
  merge_run key (a, buf +:+ text) runs
  = merge_run key (a, buf) (merge_run key (b, text) runs).
Proof.
  intros Hab. destruct runs as [|[c text'] runs]; cbn.
  - by rewrite bool_decide_eq_true_2.
  - rewrite <- Hab. case_bool_decide as Hac; cbn.
    + rewrite bool_decide_eq_true_2 by done. by rewrite append_assoc.
    + by rewrite bool_decide_eq_true_2.
Qed.

Lemma merge_run_other {X} (key : X → string) (a b : X) (buf text : string)
    (runs : list (X * string)) :
  key a ≠ key b →
  merge_run key (a, buf) (merge_run key (b, text) runs)
  = (a, buf) :: merge_run key (b, text) runs.
Proof.
  intros Hab. destruct runs as [|[c text'] runs]; cbn.
  - by rewrite bool_decide_eq_false_2.
  - case_bool_decide; cbn; by rewrite bool_decide_eq_false_2.
Qed.

Lemma merge_run_texts {X} (key : X → string) (run : X * string)
    (runs : list (X * string)) :
  joined (merge_run key run runs).*2 = run.2 +:+ joined runs.*2.
Proof.
  destruct runs as [|[c text'] runs]; [done|]. cbn.
  case_bool_decide; [|done]. unfold joined. cbn. by rewrite append_assoc.
Qed.

Lemma document_runs_texts {X} (key : X → string)
    (texts : list (X * string)) :
  joined (document_runs key texts).*2 = joined texts.*2.
Proof.
  induction texts as [|[a text] texts IH]; [done|]. cbn [document_runs].
  case_bool_decide as Htext.
  - rewrite IH, Htext. reflexivity.
  - rewrite merge_run_texts, IH. reflexivity.
Qed.

Lemma document_runs_nonempty {X} (key : X → string)
    (texts : list (X * string)) :
  Forall (λ run, run.2 ≠ EmptyString) (document_runs key texts).
Proof.
  induction texts as [|[a text] texts IH]; [constructor|].
  cbn [document_runs]. case_bool_decide as Htext; [done|].
  destruct (document_runs key texts) as [|[c text'] runs]; cbn.
  - by repeat constructor.
  - pose proof IH as [_ IH']%Forall_cons.
    case_bool_decide; constructor; cbn; try done.
    intros Hempty. by apply append_empty_inv in Hempty as [? _].
Qed.

Lemma document_runs_elem {X} (key : X → string) (texts : list (X * string))
    (run : X * string) :
  run ∈ document_runs key texts → run.1 ∈ texts.*1.
Proof.
  revert run. induction texts as [|[a text] texts IH]; intros run;
    [by intros ?%elem_of_nil|].
  cbn [document_runs]. case_bool_decide as Htext.
  { intros Hrun. cbn. right. by apply IH. }
  destruct (document_runs key texts) as [|[c text'] runs]; cbn.
  - intros ->%list_elem_of_singleton. by left.
  - case_bool_decide.
    + intros [->|Hrun]%elem_of_cons; [by left|].
      right. apply (IH run). by right.
    + intros [->|Hrun]%elem_of_cons; [by left|]. right. by apply (IH run).
Qed.

Lemma adjacent_differ_fst {X Y Z} (l : list (X * Y)) (k : list (X * Z)) :
  l.*1 = k.*1 → adjacent_differ l → adjacent_differ k.
Proof.
  intros Hfst Hadj i r1 r2 H1 H2.
  assert (k.*1 !! i = Some r1.1) as H1' by by rewrite list_lookup_fmap, H1.
  assert (k.*1 !! S i = Some r2.1) as H2'
    by by rewrite list_lookup_fmap, H2.
  rewrite <- Hfst, list_lookup_fmap in H1', H2'.
  destruct (l !! i) as [x1|] eqn:E1; [|done].
  destruct (l !! S i) as [x2|] eqn:E2; [|done].
  injection H1' as <-. injection H2' as <-. by apply (Hadj i).
Qed.

Lemma document_runs_adjacent {X} (key : X → string)
    (texts : list (X * string)) :
  adjacent_differ ((λ run, (key run.1, run.2)) <$> document_runs key texts).
Proof.
  induction texts as [|[a text] texts IH]; [by intros i ? ?|].
  cbn [document_runs]. case_bool_decide as Htext; [done|].
  destruct (document_runs key texts) as [|[c text'] runs]; cbn.
  - by intros [|i] ? ?.
  - case_bool_decide as Hac; cbn.
    + eapply adjacent_differ_fst; [|exact IH]. cbn. by rewrite Hac.
    + intros [|i] r1 r2 H1 H2; cbn in H1, H2.
      * injection H1 as <-. injection H2 as <-. done.
      * by apply (IH i).
Qed.

(** The loop of [Render] over the characters of one text *)

Lemma Render_loop_same (p : ptr) (rs : list Z) (rest : list Character)
    (buf : string) (w : World) :
  Render_loop utf8_of
    (((λ char, mkCharacter char (Some p)) <$> rs) ++ rest) (Some p, buf) w
  = Render_loop utf8_of rest (Some p, buf +:+ joined (utf8_of <$> rs)) w.
Proof.
  revert buf. induction rs as [|r rs IH]; intros buf.
  { cbn. by rewrite append_nil_r. }
  cbn [fmap list_fmap app Render_loop]. unfold Render_char.
  cbn [fst snd Character_style Character_char].
  rewrite bool_decide_eq_false_2 by (intros Hne; by apply Hne).
  unfold mbind at 1, State_bind at 1. cbn [mret State_ret].
  rewrite IH. unfold joined. cbn [fmap list_fmap foldr].
  by rewrite append_assoc.
Qed.

Lemma Render_from_same (p : ptr) (rs : list Z) (rest : list Character)
    (buf : string) (w : World) :
  Render_from utf8_of
    (((λ char, mkCharacter char (Some p)) <$> rs) ++ rest) (Some p, buf) w
  = Render_from utf8_of rest (Some p, buf +:+ joined (utf8_of <$> rs)) w.
Proof.
  unfold Render_from, mbind, State_bind. by rewrite Render_loop_same.
Qed.

Lemma Render_from_first (p : ptr) (r : Z) (rs : list Z)
    (rest : list Character) (w : World) :
  Render_from utf8_of
    (((λ char, mkCharacter char (Some p)) <$> r :: rs) ++ rest)
    (None, EmptyString) w
  = Render_from utf8_of rest (Some p, joined (utf8_of <$> r :: rs)) w.
Proof.
  change (joined (utf8_of <$> r :: rs))
    with (utf8_of r +:+ joined (utf8_of <$> rs)).
  rewrite <- (Render_from_same p rs rest (utf8_of r) w).
  unfold Render_from. cbn [fmap list_fmap app Render_loop].
  unfold Render_char. cbn [fst snd Character_style Character_char].
  rewrite bool_decide_eq_true_2 by done.
  rewrite bool_decide_eq_false_2 by (cbn; lia).
  reflexivity.
Qed.

Lemma Render_from_other (h : list Obj) (p q : ptr) (s : CharacterStyle)
    (r : Z) (rs : list Z) (rest : list Character) (buf : string)
    (w : World) :
  heap w = h → h !! q = Some (OCharacterStyle s) →
  buf ≠ EmptyString → q ≠ p →
  Render_from utf8_of
    (((λ char, mkCharacter char (Some p)) <$> r :: rs) ++ rest)
    (Some q, buf) w
  = Render_from utf8_of rest (Some p, joined (utf8_of <$> r :: rs))
      {| heap := h; stdout := stdout w ++ written (styled_text s buf) |}.
Proof.
  intros Hw Hq Hbuf Hne.
  change (joined (utf8_of <$> r :: rs))
    with (utf8_of r +:+ joined (utf8_of <$> rs)).
  rewrite <- (Render_from_same p rs rest (utf8_of r)).
  unfold Render_from. cbn [fmap list_fmap app Render_loop].
  unfold Render_char. cbn [fst snd Character_style Character_char].
  rewrite bool_decide_eq_true_2 by congruence.
  rewrite bool_decide_eq_true_2 by (by apply length_pos_nonempty).
  unfold mbind at 1 2 3 4, State_bind at 1 2 3 4.
  rewrite (printStyledText_ok h q s buf w Hw Hq). reflexivity.
Qed.

(** The loop of [Render] over the characters of a sequence of texts, where
    [R a p] says that [p] is the pointer served for [a]: it points to the
    style [sty a], and two pointers are equal exactly when the keys are. *)

Section Runs.

Context {X : Type} (key : X → string) (sty : X → CharacterStyle).
Context (h : list Obj) (R : X → ptr → Prop).

Hypothesis Hutf8 : ∀ r, utf8_of r ≠ EmptyString.
Hypothesis Hsty : ∀ a p, R a p → h !! p = Some (OCharacterStyle (sty a)).
Hypothesis Hkey : ∀ a p b q, R a p → R b q → (p = q ↔ key a = key b).

Lemma joined_utf8_nonempty (r : Z) (rs : list Z) :
  joined (utf8_of <$> r :: rs) ≠ EmptyString.
Proof.
  intros Hempty. apply append_empty_inv in Hempty as [Hr _].
  by apply (Hutf8 r).
Qed.

Lemma Render_from_pending (calls : list (string * X)) (ps : list ptr) :
  Forall2 (λ call p, R call.2 p) calls ps →
  ∀ (a : X) (p : ptr) (buf : string) (w : World),
    R a p → buf ≠ EmptyString → heap w = h →
    Render_from utf8_of
      (concat (zip_with
                 (λ call p,
                    (λ char, mkCharacter char (Some p)) <$> runes_of call.1)
                 calls ps))
      (Some p, buf) w
    = (Some tt,
       {| heap := h;
          stdout :=
            stdout w
            ++ concat
                 ((λ run, written (styled_text (sty run.1) run.2))
                    <$> merge_run key (a, buf)
                          (document_runs key
                             ((λ call, (call.2,
                                        joined (utf8_of <$> runes_of call.1)))
                                <$> calls))) |}).
Proof.
  induction 1 as [|[text b] q calls ps Hbq _ IH]; intros a p buf w Ha Hbuf Hw.
  { unfold Render_from. cbn [zip_with concat Render_loop].
    unfold mbind, State_bind. cbn [mret State_ret].
    rewrite bool_decide_eq_true_2 by (by apply length_pos_nonempty).
    rewrite (printStyledText_ok h p (sty a) buf w Hw (Hsty a p Ha)).
    cbn. by rewrite app_nil_r. }
  cbn [zip_with concat fmap list_fmap document_runs fst snd] in *.
  destruct (runes_of text) as [|r rs] eqn:Hrs.
  { cbn [fmap list_fmap app]. rewrite bool_decide_eq_true_2 by done.
    by apply IH. }
  rewrite bool_decide_eq_false_2 by apply joined_utf8_nonempty.
  destruct (decide (p = q)) as [->|Hpq].
  - rewrite Render_from_same, (IH a q) by (try done;
      intros [? _]%append_empty_inv; done).
    rewrite (merge_run_same key a b); [done|]. by apply (Hkey a q b q).
  - rewrite (Render_from_other h q p (sty a)) by (try done; by apply Hsty).
    rewrite (IH b q) by (try done; apply joined_utf8_nonempty).
    rewrite (merge_run_other key a b).
    + cbn [fmap list_fmap concat stdout]. by rewrite <- app_assoc.
    + intros Hab. apply Hpq. by apply (Hkey a p b q).
Qed.

Lemma Render_from_start (calls : list (string * X)) (ps : list ptr) :
  Forall2 (λ call p, R call.2 p) calls ps →
  ∀ w : World,
    heap w = h →
    Render_from utf8_of
      (concat (zip_with
                 (λ call p,
                    (λ char, mkCharacter char (Some p)) <$> runes_of call.1)
                 calls ps))
      (None, EmptyString) w
    = (Some tt,
       {| heap := h;
          stdout :=
            stdout w
            ++ concat
                 ((λ run, written (styled_text (sty run.1) run.2))
                    <$> document_runs key
                          ((λ call, (call.2,
                                     joined (utf8_of <$> runes_of call.1)))
                             <$> calls)) |}).
Proof.
  induction 1 as [|[text b] q calls ps Hbq Hall IH]; intros w Hw.
  { destruct w as [hw out]. cbn in Hw. subst hw.
    unfold Render_from. cbn. by rewrite app_nil_r. }
  cbn [zip_with concat fmap list_fmap document_runs fst snd] in *.
  destruct (runes_of text) as [|r rs] eqn:Hrs.
  { cbn [fmap list_fmap app]. rewrite bool_decide_eq_true_2 by done.
    by apply IH. }
  rewrite bool_decide_eq_false_2 by apply joined_utf8_nonempty.
  rewrite Render_from_first.
  by rewrite (Render_from_pending calls ps Hall b q)
    by (try done; apply joined_utf8_nonempty).
Qed.

End Runs.

End TextEditor.

(** The styles served *)

Lemma style_of_key (a : string * Z * string * bool * bool) :
  CharacterStyle_key (style_of a) = keyOf (F:=StyleFactory) a.
Proof. by destruct a as [[[[font sz] color] bold] italic]. Qed.

Lemma descriptor_style_of (a : string * Z * string * bool * bool) :
  descriptor (F:=StyleFactory) a = OCharacterStyle (style_of a).
Proof. by destruct a as [[[[font sz] color] bold] italic]. Qed.

Lemma served_key (reqs : list (string * Z * string * bool * bool))
    (a : string * Z * string * bool * bool) :
  CharacterStyle_key (served reqs a) = keyOf (F:=StyleFactory) a.
Proof.
  unfold served. destruct (list_find _ reqs) as [[j b]|] eqn:Hfind.
  - apply list_find_Some in Hfind as (_ & Hkey & _).
    by rewrite style_of_key.
  - apply style_of_key.
Qed.

Lemma served_cell (reqs : list (string * Z * string * bool * bool))
    (w : World) (a : string * Z * string * bool * bool) (p : ptr) :
  let g := acquireAll NewStyleFactory reqs w in
  cache g.1.2 !! keyOf (F:=StyleFactory) a = Some p →
  heap g.2 !! p = Some (OCharacterStyle (served reqs a)).
Proof.
  intros g Hp.
  pose proof (acquireAll_first_wins GetStyle_refines reqs NewStyleFactory w
                _ _ Hp) as Hfirst.
  cbn [cache Style_Factory NewStyleFactory styles] in Hfirst.
  rewrite lookup_empty in Hfirst.
  destruct Hfirst as (j & b & Hj & Hb & Hmin & Hcell).
  fold g in Hcell. rewrite Hcell, descriptor_style_of. do 2 f_equal.
  unfold served.
  assert (list_find (λ b, keyOf (F:=StyleFactory) b
                          = keyOf (F:=StyleFactory) a) reqs = Some (j, b))
    as ->; [|done].
  apply list_find_Some. split_and!; [done|done|].
  intros j' b' Hb' Hlt. by apply (Hmin j' b').
Qed.

Lemma served_own (reqs : list (string * Z * string * bool * bool))
    (a : string * Z * string * bool * bool) :
  (∀ a b, a ∈ reqs → b ∈ reqs →
          keyOf (F:=StyleFactory) a = keyOf (F:=StyleFactory) b → a = b) →
  a ∈ reqs → served reqs a = style_of a.
Proof.
  intros Hinj Ha. unfold served.
  destruct (list_find _ reqs) as [[j b]|] eqn:Hfind; [|done].
  apply list_find_Some in Hfind as (Hb & Hkey & _).
  rewrite (Hinj b a); [done| |done|done].
  by eapply list_elem_of_lookup_2.
Qed.

Lemma joined_texts (runes_of : string → list Z) (utf8_of : Z → string)
    {X} (calls : list (string * X)) :
  joined ((λ call, joined (utf8_of <$> runes_of call.1)) <$> calls)
  = joined (utf8_of <$> concat (runes_of <$> calls.*1)).
Proof.
  induction calls as [|[text a] calls IH]; [done|].
  cbn [fmap list_fmap concat fst]. rewrite fmap_app, joined_app.
  unfold joined at 1. cbn [foldr]. fold (joined
    ((λ call : string * X, joined (utf8_of <$> runes_of call.1))
       <$> calls)).
  by rewrite IH.
Qed.

(** The characters of a document and their keys *)

Lemma const_keys_set {Y} (k : string) (l : list Y) :
  (list_to_set ((λ _, k) <$> l) : gset string)
  = match l with [] => ∅ | _ => {[k]} end.
Proof.
  induction l as [|y l IH]; [done|]. cbn [fmap list_fmap list_to_set].
  rewrite IH. destruct l; set_solver.
Qed.

Lemma text_keys_subseteq {X} (runes_of : string → list Z)
    (key : X → string) (calls : list (string * X)) :
  (list_to_set (concat ((λ call, (λ _, key call.2) <$> runes_of call.1)
                          <$> calls)) : gset string)
  ⊆ list_to_set (key <$> calls.*2).
Proof.
  induction calls as [|[text a] calls IH]; [done|].
  cbn [fmap list_fmap concat fst snd list_to_set].
  rewrite list_to_set_app_L, const_keys_set.
  destruct (runes_of text); set_solver.
Qed.

Lemma text_keys_all {X} (runes_of : string → list Z)
    (key : X → string) (calls : list (string * X)) :
  Forall (λ call, runes_of call.1 ≠ []) calls →
  (list_to_set (concat ((λ call, (λ _, key call.2) <$> runes_of call.1)
                          <$> calls)) : gset string)
  = list_to_set (key <$> calls.*2).
Proof.
  induction 1 as [|[text a] calls Hrunes _ IH]; [done|].
  cbn [fmap list_fmap concat fst snd list_to_set] in *.
  rewrite list_to_set_app_L, const_keys_set, IH.
  by destruct (runes_of text).
Qed.

Lemma text_keys_length {X} (runes_of : string → list Z)
    (key : X → string) (calls : list (string * X)) :
  length (concat ((λ call, (λ _, key call.2) <$> runes_of call.1) <$> calls))
  = length (concat (runes_of <$> calls.*1)).
Proof.
  induction calls as [|[text a] calls IH]; [done|].
  cbn [fmap list_fmap concat fst snd].
  by rewrite !length_app, length_fmap, IH.
Qed.

Lemma segments_chars {X} (runes_of : string → list Z)
    (calls : list (string * X)) (ps : list ptr) :
  length ps = length calls →
  Character_char
    <$> concat (zip_with
                  (λ call p,
                     (λ char, mkCharacter char (Some p)) <$> runes_of call.1)
                  calls ps)
  = concat (runes_of <$> calls.*1).
Proof.
  revert ps. induction calls as [|[text a] calls IH]; intros [|p ps] Hlen;
    cbn in Hlen; try lia; [done|].
  cbn [zip_with concat fmap list_fmap fst]. rewrite fmap_app, IH by lia.
  f_equal. rewrite <- list_fmap_compose. by rewrite list_fmap_id.
Qed.

Lemma segments_keys {X} (runes_of : string → list Z) (key : X → string)
    (h : list Obj) (calls : list (string * X)) (ps : list ptr) :
  Forall2 (λ call p, ∀ char, Character_key h (mkCharacter char (Some p))
                             = Some (key call.2)) calls ps →
  omap (Character_key h)
       (concat (zip_with
                  (λ call p,
                     (λ char, mkCharacter char (Some p)) <$> runes_of call.1)
                  calls ps))
  = concat ((λ call, (λ _, key call.2) <$> runes_of call.1) <$> calls).
Proof.
  induction 1 as [|[text a] p calls ps Hp _ IH]; [done|].
  cbn [zip_with concat fmap list_fmap fst snd] in *.
  rewrite omap_app, IH. f_equal.
  induction (runes_of text) as [|r rs IHrs]; [done|].
  cbn [fmap list_fmap omap list_omap]. by rewrite Hp, IHrs.
Qed.

(** Every character of a document points to a style with the key of the
    attributes that its text was added with. *)
Lemma characters_keys (runes_of : string → list Z)
    (calls : list (string * (string * Z * string * bool * bool)))
    (w : World) :
  let t := addTexts runes_of NewTextEditor calls w in
  omap (Character_key (heap t.2)) (characters t.1)
  = concat ((λ call, (λ _, keyOf (F:=StyleFactory) call.2)
                       <$> runes_of call.1) <$> calls)
  ∧ Character_char <$> characters t.1 = concat (runes_of <$> calls.*1).
Proof.
  intros t.
  destruct (addTexts_acquireAll runes_of calls NewTextEditor w)
    as (_ & Hw & Hc).
  fold t in Hw, Hc. cbn [NewTextEditor characters app] in Hc.
  pose proof (acquireAll_handles GetStyle_refines calls.*2
                NewStyleFactory w) as Hhandles.
  apply Forall2_fmap_l in Hhandles. rewrite Hc, Hw. split.
  - apply (segments_keys runes_of (keyOf (F:=StyleFactory))).
    eapply Forall2_impl; [exact Hhandles|].
    intros [text a] p Hp char. cbn in Hp.
    unfold Character_key. cbn.
    rewrite (served_cell calls.*2 w a p Hp).
    exact (f_equal Some (served_key calls.*2 a)).
  - apply segments_chars. symmetry. by eapply Forall2_length.
Qed.

(** C5, as amended.  Starting from a new forest, planting one tree per
    request leaves as many trees as requests and exactly as many tree types
    in the cache ([GetTotalTypes]) as the requests have distinct keys,
    however many requests there are; exactly that many descriptors were
    allocated, and the number is never larger than the number of requests.
    The same holds of a new particle system, and of each factory called
    directly.  A text editor holds one character per rune of the texts
    added, each pointing to a style with the key of the attributes its text
    was added with.  Its cache holds one style per distinct key among the
    calls of [AddText]: that is the number of distinct keys among the
    characters when every text added has at least one rune, and it is never
    less. *)
Theorem one_descriptor_per_distinct_key :
  (∀ (reqs : list (Z * Z * (string * string * string))) (w : World),
     let K := size (list_to_set (keyOf (F:=TreeTypeFactory) <$> reqs.*2)
                    : gset string) in
     let r := plantAll NewForest reqs w in
     K ≤ length reqs
     ∧ length (trees r.1) = length reqs
     ∧ GetTotalTypes (factory r.1) = Z.of_nat K
     ∧ length (heap r.2) = length (heap w) + K)
  ∧ (∀ (reqs : list (Z * Z * Z * (string * string))) (w : World),
     let K := size (list_to_set
                      (keyOf (F:=SpriteFactory) <$> (sprite16 <$> reqs.*2))
                    : gset string) in
     let r := addAll NewParticleSystem reqs w in
     K ≤ length reqs
     ∧ length (particles r.1) = length reqs
     ∧ GetTotalSprites (spriteFactory r.1) = Z.of_nat K
     ∧ length (heap r.2) = length (heap w) + K)
  ∧ (∀ (reqs : list (string * string * string)) (w : World),
     let K := size (list_to_set (keyOf (F:=TreeTypeFactory) <$> reqs)
                    : gset string) in
     let r := acquireAll NewTreeTypeFactory reqs w in
     K ≤ length reqs
     ∧ GetTotalTypes r.1.2 = Z.of_nat K
     ∧ length (heap r.2) = length (heap w) + K)
  ∧ (∀ (reqs : list (string * Z * string * bool * bool)) (w : World),
     let K := size (list_to_set (keyOf (F:=StyleFactory) <$> reqs)
                    : gset string) in
     let r := acquireAll NewStyleFactory reqs w in
     K ≤ length reqs
     ∧ GetTotalStyles r.1.2 = Z.of_nat K
     ∧ length (heap r.2) = length (heap w) + K)
  ∧ (∀ (reqs : list (string * string * Z * Z)) (w : World),
     let K := size (list_to_set (keyOf (F:=SpriteFactory) <$> reqs)
                    : gset string) in
     let r := acquireAll NewSpriteFactory reqs w in
     K ≤ length reqs
     ∧ GetTotalSprites r.1.2 = Z.of_nat K
     ∧ length (heap r.2) = length (heap w) + K)
  ∧ (∀ (runes_of : string → list Z)
       (calls : list (string * (string * Z * string * bool * bool)))
       (w : World),
     let t := addTexts runes_of NewTextEditor calls w in
     let keys := omap (Character_key (heap t.2)) (characters t.1) in
     let K := size (list_to_set keys : gset string) in
     let calls_K := size (list_to_set (keyOf (F:=StyleFactory) <$> calls.*2)
                          : gset string) in
     Character_char <$> characters t.1 = concat (runes_of <$> calls.*1)
     ∧ keys = concat ((λ call, (λ _, keyOf (F:=StyleFactory) call.2)
                                 <$> runes_of call.1) <$> calls)
     ∧ K ≤ length (characters t.1)
     ∧ GetTotalStyles (styleFactory t.1) = Z.of_nat calls_K
     ∧ length (heap t.2) = length (heap w) + calls_K
     ∧ K ≤ calls_K
     ∧ (Forall (λ call, runes_of call.1 ≠ []) calls →
        GetTotalStyles (styleFactory t.1) = Z.of_nat K)).
Proof.
  split_and!.
  - intros reqs w K r.
    destruct (plantAll_acquireAll reqs NewForest w) as (Hf & Hw & Ht).
    destruct (acquireAll_fresh GetTreeType_refines reqs.*2
                NewTreeTypeFactory w eq_refl) as (Hsize & Hheap).
    fold r in Hf, Hw, Ht. fold K in Hsize, Hheap. split_and!.
    + etrans; [apply distinct_keys_le|]. by rewrite !length_fmap.
    + exact Ht.
    + unfold GetTotalTypes. rewrite Hf. f_equal. exact Hsize.
    + rewrite Hw. exact Hheap.
  - intros reqs w K r.
    destruct (addAll_acquireAll reqs NewParticleSystem w) as (Hf & Hw & Ht).
    destruct (acquireAll_fresh GetSprite_refines (sprite16 <$> reqs.*2)
                NewSpriteFactory w eq_refl) as (Hsize & Hheap).
    fold r in Hf, Hw, Ht. fold K in Hsize, Hheap. split_and!.
    + etrans; [apply distinct_keys_le|]. by rewrite !length_fmap.
    + exact Ht.
    + unfold GetTotalSprites. rewrite Hf. f_equal. exact Hsize.
    + rewrite Hw. exact Hheap.
  - intros reqs w K r.
    destruct (acquireAll_fresh GetTreeType_refines reqs
                NewTreeTypeFactory w eq_refl) as (Hsize & Hheap).
    split_and!; [|unfold GetTotalTypes; f_equal; exact Hsize|exact Hheap].
    etrans; [apply distinct_keys_le|]. by rewrite length_fmap.
  - intros reqs w K r.
    destruct (acquireAll_fresh GetStyle_refines reqs
                NewStyleFactory w eq_refl) as (Hsize & Hheap).
    split_and!; [|unfold GetTotalStyles; f_equal; exact Hsize|exact Hheap].
    etrans; [apply distinct_keys_le|]. by rewrite length_fmap.
  - intros reqs w K r.
    destruct (acquireAll_fresh GetSprite_refines reqs
                NewSpriteFactory w eq_refl) as (Hsize & Hheap).
    split_and!; [|unfold GetTotalSprites; f_equal; exact Hsize|exact Hheap].
    etrans; [apply distinct_keys_le|]. by rewrite length_fmap.
  - intros runes_of calls w t keys K calls_K.
    destruct (characters_keys runes_of calls w) as [Hkeys Hchars].
    fold t in Hkeys, Hchars. fold keys in Hkeys.
    destruct (addTexts_acquireAll runes_of calls NewTextEditor w)
      as (Hf & Hw & _).
    fold t in Hf, Hw. cbn [NewTextEditor styleFactory] in Hf.
    destruct (acquireAll_fresh GetStyle_refines calls.*2
                NewStyleFactory w eq_refl) as (Hsize & Hheap).
    fold calls_K in Hsize, Hheap.
    assert (GetTotalStyles (styleFactory t.1) = Z.of_nat calls_K) as Htotal.
    { unfold GetTotalStyles. rewrite Hf. f_equal. exact Hsize. }
    split_and!; [done|done| |done| | |].
    + etrans; [apply distinct_keys_le|].
      rewrite Hkeys, text_keys_length, <- Hchars. by rewrite length_fmap.
    + rewrite Hw. exact Hheap.
    + unfold K, calls_K. rewrite Hkeys.
      apply subseteq_size, text_keys_subseteq.
    + intros Hrunes. rewrite Htotal. unfold K, calls_K.
      by rewrite Hkeys, (text_keys_all _ _ _ Hrunes).
Qed.

(** The claim as the specification states it fails for the text editor:
    [AddText] asks for the style before it looks at the text, so that
    adding an empty text caches a style that no character points to.  After
    the text abc and an empty text in another style the document has three
    characters with one key between them, and the cache holds two styles. *)
Lemma empty_text_caches_unused_style :
  let w0 := {| heap := []; stdout := [] |} in
  let t := addTexts ascii_runes_of NewTextEditor
             [("abc", ("Arial", 12%Z, "Black", false, false));
              (EmptyString, ("Times", 14%Z, "Red", false, false))] w0 in
  let N := length (characters t.1) in
  let K := size (list_to_set
                   (omap (Character_key (heap t.2)) (characters t.1))
                 : gset string) in
  N = 3 ∧ K = 1 ∧ K ≤ N
  ∧ GetTotalStyles (styleFactory t.1) = 2%Z
  ∧ GetTotalStyles (styleFactory t.1) ≠ Z.of_nat K.
Proof. vm_compute. split_and!; (reflexivity || lia || discriminate). Qed.

(** Three texts, none of them empty, in two styles. *)
Lemma one_descriptor_per_distinct_key_witness :
  let w0 := {| heap := []; stdout := [] |} in
  let calls :=
    [("Hello ", ("Arial", 12%Z, "Black", false, false));
     ("World", ("Arial", 12%Z, "Black", true, false));
     ("!", ("Arial", 12%Z, "Black", true, false))] in
  let t := addTexts ascii_runes_of NewTextEditor calls w0 in
  let K := size (list_to_set
                   (omap (Character_key (heap t.2)) (characters t.1))
                 : gset string) in
  GetTotalStyles (styleFactory t.1) = Z.of_nat K.
Proof.
  intros w0 calls.
  destruct one_descriptor_per_distinct_key as (_ & _ & _ & _ & _ & Htext).
  destruct (Htext ascii_runes_of calls w0) as (_ & _ & _ & _ & _ & _ & Hall).
  apply Hall. repeat constructor; by vm_compute.
Defined.

(** X21. For a document built from a new text editor by any sequence of
    [AddText] calls, [Render] never reads through a nil style and writes
    the header followed by the runs of the document, one styled text each.
    The runs are determined by the calls: calls without characters are
    skipped, calls that follow one another with attributes joined to the same
    key are one run with their texts one after the other, and a call with
    another key starts a new run.  A run is printed in the style built for
    the first call of the whole sequence with its key; where no two
    different attribute tuples of the calls are joined to the same key, that
    is the style the run's first text was added with.  Hence the texts of the
    runs, one after the other, are the bytes of all characters of the
    document in order, no run is empty, and no two neighbouring runs are
    printed in the same style.  [WriteRune] is taken to append at least one
    byte. *)
Theorem Render_prints_document_in_runs :
  ∀ (runes_of : string → list Z) (utf8_of : Z → string)
    (calls : list (string * (string * Z * string * bool * bool)))
    (w : World),
    (∀ r, utf8_of r ≠ EmptyString) →
    let t := addTexts runes_of NewTextEditor calls w in
    let runs :=
      document_runs (keyOf (F:=StyleFactory))
        ((λ call, (call.2, joined (utf8_of <$> runes_of call.1)))
           <$> calls) in
    let printed := (λ run, (served calls.*2 run.1, run.2)) <$> runs in
    Render utf8_of t.1 t.2
    = (Some tt,
       {| heap := heap t.2;
          stdout := stdout t.2
                    ++ ((nl +:+ "[TextEditor] Rendering document:") +:+ nl)
                       :: concat ((λ run, written (styled_text run.1 run.2))
                                    <$> printed) |})
    ∧ ((∀ a b, a ∈ calls.*2 → b ∈ calls.*2 →
               keyOf (F:=StyleFactory) a = keyOf (F:=StyleFactory) b →
               a = b) →
       printed = (λ run, (style_of run.1, run.2)) <$> runs)
    ∧ joined printed.*2
      = joined (utf8_of <$> concat (runes_of <$> calls.*1))
    ∧ Forall (λ run, run.2 ≠ EmptyString) printed
    ∧ adjacent_differ printed.
Proof.
  intros runes_of utf8_of calls w Hutf8 t runs printed. split_and!.
  - destruct (addTexts_acquireAll runes_of calls NewTextEditor w)
      as (Hf & Hw & Hc).
    fold t in Hf, Hw, Hc. cbn [NewTextEditor characters styleFactory app] in *.
    set (g := acquireAll NewStyleFactory calls.*2 w) in *.
    pose proof (acquireAll_handles GetStyle_refines calls.*2
                  NewStyleFactory w) as Hhandles.
    fold g in Hhandles. apply Forall2_fmap_l in Hhandles.
    assert (reachable g.1.2 g.2) as Hreach.
    { apply acquireAll_reachable. exact (reach_new (F:=StyleFactory) w). }
    destruct (reachable_cache_ok GetStyle_refines _ _ eq_refl Hreach) as [_ Hinj].
    change (Render utf8_of t.1 t.2)
      with ((Println (nl +:+ "[TextEditor] Rendering document:") ;;
             Render_from utf8_of (characters t.1) (None, EmptyString)) t.2).
    unfold Println, Printf. unfold mbind at 1, State_bind at 1.
    rewrite Hc.
    rewrite (Render_from_start runes_of utf8_of (keyOf (F:=StyleFactory))
               (served calls.*2) (heap g.2)
               (λ a p, cache g.1.2 !! keyOf (F:=StyleFactory) a = Some p)
               Hutf8);
      [| | |exact Hhandles|cbn; by rewrite Hw].
    + cbn [stdout]. rewrite Hw. do 2 f_equal.
      rewrite <- app_assoc. cbn [app]. do 3 f_equal.
      unfold printed. by rewrite <- list_fmap_compose.
    + intros a p Hp. by apply (served_cell calls.*2 w a p).
    + intros a p b q Ha Hb. split.
      * intros ->. by apply (Hinj _ _ q).
      * intros Hab. rewrite Hab in Ha. congruence.
  - intros Hinj. unfold printed. apply list_fmap_ext. intros i run Hrun.
    f_equal. apply served_own; [done|].
    apply list_elem_of_lookup_2, document_runs_elem in Hrun.
    by rewrite <- list_fmap_compose in Hrun.
  - assert (printed.*2 = runs.*2) as ->.
    { unfold printed. rewrite <- list_fmap_compose.
      by apply list_fmap_ext. }
    unfold runs. rewrite document_runs_texts, <- list_fmap_compose.
    apply joined_texts.
  - unfold printed. apply Forall_fmap.
    eapply Forall_impl; [apply document_runs_nonempty|done].
  - intros i r1 r2 H1 H2. unfold printed in H1, H2.
    rewrite list_lookup_fmap in H1, H2.
    destruct (runs !! i) as [run1|] eqn:E1; [|done].
    destruct (runs !! S i) as [run2|] eqn:E2; [|done].
    injection H1 as <-. injection H2 as <-. cbn. intros Hserved.
    pose proof (document_runs_adjacent (keyOf (F:=StyleFactory))
                  ((λ call, (call.2, joined (utf8_of <$> runes_of call.1)))
                     <$> calls)) as Hadj.
    fold runs in Hadj.
    apply (Hadj i (keyOf (F:=StyleFactory) run1.1, run1.2)
                  (keyOf (F:=StyleFactory) run2.1, run2.2)).
    + by rewrite list_lookup_fmap, E1.
    + by rewrite list_lookup_fmap, E2.
    + change (keyOf (F:=StyleFactory) run1.1
              = keyOf (F:=StyleFactory) run2.1).
      rewrite <- (served_key calls.*2 run1.1),
        <- (served_key calls.*2 run2.1). by rewrite Hserved.
Qed.

(** Three texts in ASCII, the last two with the same attributes. *)
Lemma Render_prints_document_in_runs_witness :
  let w0 := {| heap := []; stdout := [] |} in
  let calls :=
    [("Hello ", ("Arial", 12%Z, "Black", false, false));
     ("World", ("Arial", 12%Z, "Black", true, false));
     ("!", ("Arial", 12%Z, "Black", true, false))] in
  let t := addTexts ascii_runes_of NewTextEditor calls w0 in
  let runs :=
    document_runs (keyOf (F:=StyleFactory))
      ((λ call, (call.2, joined (ascii_utf8_of <$> ascii_runes_of call.1)))
         <$> calls) in
  let printed := (λ run, (served calls.*2 run.1, run.2)) <$> runs in
  Render ascii_utf8_of t.1 t.2
  = (Some tt,
     {| heap := heap t.2;
        stdout := stdout t.2
                  ++ ((nl +:+ "[TextEditor] Rendering document:") +:+ nl)
                     :: concat ((λ run, written (styled_text run.1 run.2))
                                  <$> printed) |})
  ∧ ((∀ a b, a ∈ calls.*2 → b ∈ calls.*2 →
             keyOf (F:=StyleFactory) a = keyOf (F:=StyleFactory) b →
             a = b) →
     printed = (λ run, (style_of run.1, run.2)) <$> runs)
  ∧ joined printed.*2
    = joined (ascii_utf8_of <$> concat (ascii_runes_of <$> calls.*1))
  ∧ Forall (λ run, run.2 ≠ EmptyString) printed
  ∧ adjacent_differ printed.
Proof.
  intros w0 calls.
  refine (Render_prints_document_in_runs
            ascii_runes_of ascii_utf8_of calls w0 _).
  intros r. discriminate.
Defined.

End FlyweightSpec.

(** ** The media adapter *)

Module AdapterSpec.
Import Adapter.

Lemma case_of_elem (tag : string) (values : list string) :
  case_of tag values = true ↔ tag ∈ values.
Proof.
  unfold case_of. rewrite existsb_exists. split.
  - intros (v & Hin & Heq). apply String.eqb_eq in Heq as ->.
    by apply list_elem_of_In.
  - intros Hin. exists tag. split; [by apply list_elem_of_In|].
    apply String.eqb_refl.
Qed.

Lemma case_of_not_elem (tag : string) (values : list string) :
  case_of tag values = false ↔ tag ∉ values.
Proof.
  rewrite <- case_of_elem. by destruct (case_of tag values).
Qed.

(** C7. [Play] returns an error exactly when the lower-cased media type is
    none of mp3, wav, audio, mp4, avi, video, vlc, mkv; it then returns the
    error naming the media type and writes nothing, and otherwise it writes
    the one line of the player it chose.  For the media type unknown it
    returns the error and writes nothing. *)
Theorem Play_error_iff_unsupported :
  ∀ (unicode_ToLower : string → string) (m : MediaAdapter)
    (mediaType fileName : string) (out : list string),
    let supported :=
      ["mp3"; "wav"; "audio"; "mp4"; "avi"; "video"; "vlc"; "mkv"] in
    let tag := ToLower unicode_ToLower mediaType in
    let r := Play unicode_ToLower m mediaType fileName out in
    (r.1 ≠ None ↔ tag ∉ supported)
    ∧ (tag ∉ supported →
       r = (Some ("unsupported media type: " +:+ mediaType), out))
    ∧ (tag ∈ supported → ∃ line, r = (None, out ++ [line]))
    ∧ Play unicode_ToLower m "unknown" fileName out
      = (Some "unsupported media type: unknown", out).
Proof.
  intros lower m mediaType fileName out supported tag r.
  assert (tag ∈ supported ↔
          tag ∈ ["mp3"; "wav"; "audio"] ∨ tag ∈ ["mp4"; "avi"; "video"]
          ∨ tag ∈ ["vlc"; "mkv"]) as Hsplit.
  { change supported
      with (["mp3"; "wav"; "audio"] ++ ["mp4"; "avi"; "video"]
            ++ ["vlc"; "mkv"]).
    by rewrite !elem_of_app. }
  subst r. unfold Play. fold tag.
  destruct (case_of tag ["mp3"; "wav"; "audio"]) eqn:Haudio;
    [|destruct (case_of tag ["mp4"; "avi"; "video"]) eqn:Hvideo;
      [|destruct (case_of tag ["vlc"; "mkv"]) eqn:Hvlc]].
  - apply case_of_elem in Haudio. cbn.
    split_and!; [rewrite Hsplit; naive_solver|rewrite Hsplit; naive_solver
                |eauto|reflexivity].
  - apply case_of_elem in Hvideo. cbn.
    split_and!; [rewrite Hsplit; naive_solver|rewrite Hsplit; naive_solver
                |eauto|reflexivity].
  - apply case_of_elem in Hvlc. cbn.
    split_and!; [rewrite Hsplit; naive_solver|rewrite Hsplit; naive_solver
                |eauto|reflexivity].
  - apply case_of_not_elem in Haudio, Hvideo, Hvlc. cbn.
    split_and!; [rewrite Hsplit; naive_solver|done
                |rewrite Hsplit; naive_solver|reflexivity].
Qed.

(** *** Letter case *)

Lemma map_bytes_no_upper (s : string) :
  existsb is_upper (String.list_ascii_of_string s) = false →
  map_bytes lower_byte s = s.
Proof.
  induction s as [|c s IH]; [done|]. simpl.
  intros Hno. apply orb_false_iff in Hno as [Hc Hs].
  rewrite IH by done. unfold lower_byte. by rewrite Hc.
Qed.

Lemma ToLower_ascii (unicode_ToLower : string → string) (s : string) :
  forallb is_ascii (String.list_ascii_of_string s) = true →
  ToLower unicode_ToLower s = map_bytes lower_byte s.
Proof.
  intros Hascii. unfold ToLower. rewrite Hascii.
  destruct (existsb is_upper (String.list_ascii_of_string s)) eqn:Hupper;
    cbn [negb]; [done|]. symmetry. by apply map_bytes_no_upper.
Qed.

(** X20. Two media types made of ASCII bytes that differ only in the case
    of their letters are treated alike by [Play]: the same player line, or
    none, is written, and an error is returned for both or for neither. *)
Theorem Play_ignores_letter_case :
  ∀ (unicode_ToLower : string → string) (m : MediaAdapter)
    (mediaType1 mediaType2 fileName : string) (out : list string),
    forallb is_ascii (String.list_ascii_of_string mediaType1) = true →
    forallb is_ascii (String.list_ascii_of_string mediaType2) = true →
    map_bytes lower_byte mediaType1 = map_bytes lower_byte mediaType2 →
    (Play unicode_ToLower m mediaType1 fileName out).2
    = (Play unicode_ToLower m mediaType2 fileName out).2
    ∧ ((Play unicode_ToLower m mediaType1 fileName out).1 = None
       ↔ (Play unicode_ToLower m mediaType2 fileName out).1 = None).
Proof.
  intros lower m t1 t2 fileName out Hascii1 Hascii2 Hsame.
  unfold Play.
  rewrite (ToLower_ascii lower t1 Hascii1), (ToLower_ascii lower t2 Hascii2).
  rewrite <- Hsame.
  destruct (case_of _ ["mp3"; "wav"; "audio"]); [done|].
  destruct (case_of _ ["mp4"; "avi"; "video"]); [done|].
  by destruct (case_of _ ["vlc"; "mkv"]).
Qed.

Lemma Play_ignores_letter_case_witness :
  (Play (λ s, s) NewMediaAdapter "MP3" "song.mp3" []).2
  = (Play (λ s, s) NewMediaAdapter "mp3" "song.mp3" []).2
  ∧ ((Play (λ s, s) NewMediaAdapter "MP3" "song.mp3" []).1 = None
     ↔ (Play (λ s, s) NewMediaAdapter "mp3" "song.mp3" []).1 = None).
Proof.
  apply (Play_ignores_letter_case (λ s, s) NewMediaAdapter "MP3" "mp3"
           "song.mp3" []); reflexivity.
Defined.

End AdapterSpec.

(** ** The proxies *)

Module ProxySpec.
Import Proxy.

Lemma slice_to_ok (s : string) (n : nat) (out : list string) :
  n ≤ String.length s → slice_to s n out = (Done (String.substring 0 n s), out).
Proof. intros Hn. unfold slice_to. by rewrite bool_decide_eq_true_2. Qed.

Lemma slice_to_panic (s : string) (n : nat) (out : list string) :
  String.length s < n →
  slice_to s n out
  = (Panic ("runtime error: slice bounds out of range [:"
            +:+ fmt_int (Z.of_nat n) +:+ "] with length "
            +:+ fmt_int (Z.of_nat (String.length s))), out).
Proof. intros Hn. unfold slice_to. rewrite bool_decide_eq_false_2; [done|lia]. Qed.

Lemma not_prefix_slice (pre s : string) :
  String.prefix pre s = false →
  String.eqb (String.substring 0 (String.length pre) s) pre = false.
Proof.
  intros Hpre. apply String.eqb_neq. intros Heq.
  apply String.prefix_correct in Heq. congruence.
Qed.

(** What [checkAccess] answers to a user. *)
Lemma checkAccess_user (p : DatabaseProxy) (sql : string) (out : list string) :
  userRole p = "user" → 6 ≤ String.length sql →
  checkAccess p sql out
  = (Done (String.prefix "SELECT" sql || String.prefix "select" sql), out).
Proof.
  intros Hrole Hlen. unfold checkAccess. rewrite Hrole. cbn.
  unfold mbind, Exec_bind. rewrite slice_to_ok by done.
  destruct (String.prefix "SELECT" sql) eqn:Hupper.
  - apply String.prefix_correct in Hupper. cbn in Hupper. rewrite Hupper.
    reflexivity.
  - apply not_prefix_slice in Hupper. cbn in Hupper. rewrite Hupper.
    rewrite slice_to_ok by done.
    destruct (String.prefix "select" sql) eqn:Hlower.
    + apply String.prefix_correct in Hlower. cbn in Hlower. rewrite Hlower.
      reflexivity.
    + apply not_prefix_slice in Hlower. cbn in Hlower. rewrite Hlower.
      reflexivity.
Qed.

Lemma checkAccess_user_short (p : DatabaseProxy) (sql : string)
    (out : list string) :
  userRole p = "user" → String.length sql < 6 →
  checkAccess p sql out
  = (Panic ("runtime error: slice bounds out of range [:6] with length "
            +:+ fmt_int (Z.of_nat (String.length sql))), out).
Proof.
  intros Hrole Hlen. unfold checkAccess. rewrite Hrole. cbn.
  unfold mbind, Exec_bind. by rewrite slice_to_panic.
Qed.

Lemma checkAccess_admin (p : DatabaseProxy) (sql : string) (out : list string) :
  userRole p = "admin" → checkAccess p sql out = (Done true, out).
Proof. intros Hrole. unfold checkAccess. by rewrite Hrole. Qed.

(** C8. For the role user, a query of at least six bytes that begins with
    neither SELECT nor select is answered ACCESS_DENIED, and the console
    gets the two lines of the proxy and none of the real database; for the
    role admin every query is forwarded: the answer is the real database's,
    whose line is on the console between the proxy's. *)
Theorem Query_user_denied_admin_granted :
  (∀ (p : DatabaseProxy) (sql : string) (out : list string),
     userRole p = "user" →
     6 ≤ String.length sql →
     String.prefix "SELECT" sql = false →
     String.prefix "select" sql = false →
     Query p sql out
     = (Done "ACCESS_DENIED",
        out ++ [nl +:+ "[DatabaseProxy] User role: user attempting query"
                +:+ nl;
                "[DatabaseProxy] ACCESS DENIED - Insufficient permissions"
                +:+ nl]))
  ∧ (∀ (p : DatabaseProxy) (sql : string) (out : list string),
     userRole p = "admin" →
     Query p sql out
     = (Done "QUERY_RESULT",
        out ++ [nl +:+ "[DatabaseProxy] User role: admin attempting query"
                +:+ nl;
                "[DatabaseProxy] Access granted - forwarding to real database"
                +:+ nl;
                "[RealDatabase] Executing query: " +:+ sql +:+ nl;
                "[DatabaseProxy] Logging query: " +:+ sql
                +:+ " by user role: admin" +:+ nl])
     ∧ RealDatabase_Query (realDatabase p) sql out
       = (Done "QUERY_RESULT",
          out ++ ["[RealDatabase] Executing query: " +:+ sql +:+ nl])).
Proof.
  split.
  - intros p sql out Hrole Hlen Hupper Hlower.
    unfold Query, mbind, Exec_bind. cbn [Printf].
    rewrite checkAccess_user, Hupper, Hlower by done. cbn.
    rewrite Hrole, <- app_assoc. reflexivity.
  - intros p sql out Hrole. split; [|reflexivity].
    unfold Query, mbind, Exec_bind. cbn [Printf].
    rewrite checkAccess_admin by done.
    unfold RealDatabase_Query, logQuery, Println, Printf, mbind, Exec_bind.
    cbn. rewrite Hrole, <- !app_assoc. reflexivity.
Qed.

Lemma Query_user_denied_admin_granted_witness :
  Query (mkDatabaseProxy "user" (mkRealDatabase "localhost:5432/mydb"))
        "DELETE FROM products WHERE id = 1" []
  = (Done "ACCESS_DENIED",
     [nl +:+ "[DatabaseProxy] User role: user attempting query" +:+ nl;
      "[DatabaseProxy] ACCESS DENIED - Insufficient permissions" +:+ nl])
  ∧ (Query (mkDatabaseProxy "admin" (mkRealDatabase "localhost:5432/mydb"))
           "DELETE FROM logs WHERE date < '2024-01-01'" []).1
    = Done "QUERY_RESULT".
Proof.
  split.
  - apply (proj1 Query_user_denied_admin_granted
             (mkDatabaseProxy "user" (mkRealDatabase "localhost:5432/mydb"))
             "DELETE FROM products WHERE id = 1" []);
      [reflexivity|cbn; lia|reflexivity|reflexivity].
  - rewrite (proj1 (proj2 Query_user_denied_admin_granted
             (mkDatabaseProxy "admin" (mkRealDatabase "localhost:5432/mydb"))
             "DELETE FROM logs WHERE date < '2024-01-01'" [] eq_refl)).
    reflexivity.
Defined.

(** C9. For the role user, a query of fewer than six bytes makes [Query]
    panic on the slice expression of [checkAccess], after the first line
    of the proxy has been written; the query use is one. *)
Theorem Query_user_short_panics :
  ∀ (p : DatabaseProxy) (sql : string) (out : list string),
    userRole p = "user" →
    String.length sql < 6 →
    Query p sql out
    = (Panic ("runtime error: slice bounds out of range [:6] with length "
              +:+ fmt_int (Z.of_nat (String.length sql))),
       out ++ [nl +:+ "[DatabaseProxy] User role: user attempting query"
               +:+ nl]).
Proof.
  intros p sql out Hrole Hlen.
  unfold Query, mbind, Exec_bind. cbn [Printf].
  rewrite checkAccess_user_short by done. by rewrite Hrole.
Qed.

Lemma Query_user_short_panics_witness :
  Query (mkDatabaseProxy "user" (mkRealDatabase "localhost:5432/mydb"))
        "use" []
  = (Panic "runtime error: slice bounds out of range [:6] with length 3",
     [nl +:+ "[DatabaseProxy] User role: user attempting query" +:+ nl]).
Proof.
  apply (Query_user_short_panics
           (mkDatabaseProxy "user" (mkRealDatabase "localhost:5432/mydb"))
           "use" []); [reflexivity|cbn; lia].
Defined.

(** *** The bank account *)

Lemma attempts_cons fmt_2f p enteredPin amount calls out :
  attempts fmt_2f p ((enteredPin, amount) :: calls) out =
    match AuthenticateAndWithdraw fmt_2f p enteredPin amount out with
    | (Done (ok, p'), out') =>
        match attempts fmt_2f p' calls out' with
        | (Done (oks, p''), out'') => (Done (ok :: oks, p''), out'')
        | (Panic msg, out'') => (Panic msg, out'')
        end
    | (Panic msg, out') => (Panic msg, out')
    end.
Proof.
  cbn [attempts]. unfold mbind, Exec_bind.
  destruct (AuthenticateAndWithdraw _ _ _ _ _) as [[[ok p']|msg] out'];
    [|done].
  by destruct (attempts _ _ _ _) as [[[oks p'']|msg] out''].
Qed.

Lemma AuthenticateAndWithdraw_locked fmt_2f p enteredPin amount out :
  locked p = true →
  AuthenticateAndWithdraw fmt_2f p enteredPin amount out
  = (Done (false, p),
     out ++ [nl +:+ "[BankAccountProxy] Authentication attempt..." +:+ nl;
             "[BankAccountProxy] Account is LOCKED due to multiple failed attempts"
             +:+ nl]).
Proof.
  intros Hlocked. unfold AuthenticateAndWithdraw. rewrite Hlocked.
  unfold Println, Printf, mbind, Exec_bind; cbn.
  by rewrite <- app_assoc.
Qed.

Lemma AuthenticateAndWithdraw_wrong_pin fmt_2f p enteredPin amount out :
  locked p = false → enteredPin ≠ pin p →
  (AuthenticateAndWithdraw fmt_2f p enteredPin amount out).1
  = Done (false,
          {| pin := pin p; realAccount := realAccount p;
             attemptCount := wrap_int (attemptCount p + 1);
             locked := bool_decide (3 ≤ wrap_int (attemptCount p + 1))%Z |}).
Proof.
  intros Hlocked Hpin. unfold AuthenticateAndWithdraw. rewrite Hlocked.
  apply String.eqb_neq in Hpin. rewrite Hpin.
  unfold Println, Printf, mbind, Exec_bind; cbn.
  by destruct (bool_decide (3 ≤ wrap_int (attemptCount p + 1))%Z).
Qed.

(** Three wrong PINs in a row, counted from zero, lock the account. *)
Lemma three_failed_attempts_lock fmt_2f p e1 a1 e2 a2 e3 a3 out :
  locked p = false → attemptCount p = 0%Z →
  e1 ≠ pin p → e2 ≠ pin p → e3 ≠ pin p →
  (attempts fmt_2f p [(e1, a1); (e2, a2); (e3, a3)] out).1
  = Done ([false; false; false],
          {| pin := pin p; realAccount := realAccount p;
             attemptCount := 3; locked := true |}).
Proof.
  intros Hlocked Hcount H1 H2 H3.
  rewrite attempts_cons.
  pose proof (AuthenticateAndWithdraw_wrong_pin fmt_2f p e1 a1 out
                Hlocked H1) as Hstep1.
  rewrite Hcount in Hstep1.
  destruct (AuthenticateAndWithdraw fmt_2f p e1 a1 out) as [o1 out1].
  cbn in Hstep1. subst o1.
  rewrite attempts_cons.
  match goal with |- context [AuthenticateAndWithdraw _ ?q e2 a2 out1] =>
    pose proof (AuthenticateAndWithdraw_wrong_pin fmt_2f q e2 a2 out1
                  eq_refl H2) as Hstep2;
    destruct (AuthenticateAndWithdraw fmt_2f q e2 a2 out1) as [o2 out2]
  end.
  cbn in Hstep2. subst o2.
  rewrite attempts_cons.
  match goal with |- context [AuthenticateAndWithdraw _ ?q e3 a3 out2] =>
    pose proof (AuthenticateAndWithdraw_wrong_pin fmt_2f q e3 a3 out2
                  eq_refl H3) as Hstep3;
    destruct (AuthenticateAndWithdraw fmt_2f q e3 a3 out2) as [o3 out3]
  end.
  cbn in Hstep3. subst o3. reflexivity.
Qed.

(** C10. On a locked account every attempt, whatever the PIN and the
    amount, returns false and leaves the proxy as it is: the balance is the
    same and the account is still locked.  So it is after any number of
    attempts. *)
Theorem locked_account_stays_locked :
  ∀ (fmt_2f : float → string) (p : BankAccountProxy)
    (calls : list (string * float)) (out : list string),
    locked p = true →
    (∀ (enteredPin : string) (amount : float),
       (AuthenticateAndWithdraw fmt_2f p enteredPin amount out).1
       = Done (false, p))
    ∧ ∃ p' : BankAccountProxy,
        (attempts fmt_2f p calls out).1
        = Done (replicate (length calls) false, p')
        ∧ BankAccountProxy_GetBalance p' = BankAccountProxy_GetBalance p
        ∧ locked p' = true
        ∧ p' = p.
Proof.
  intros fmt_2f p calls out Hlocked. split.
  - intros enteredPin amount.
    by rewrite AuthenticateAndWithdraw_locked.
  - exists p. split_and!; try done.
    revert out. induction calls as [|[enteredPin amount] calls IH];
      intros out; [done|].
    rewrite attempts_cons, AuthenticateAndWithdraw_locked by done.
    specialize (IH (out ++ [nl +:+ "[BankAccountProxy] Authentication attempt..." +:+ nl;
             "[BankAccountProxy] Account is LOCKED due to multiple failed attempts"
             +:+ nl])).
    destruct (attempts fmt_2f p calls _) as [[[oks p'']|msg] out''];
      cbn in IH; [|done].
    by simplify_eq.
Qed.

(** The attempts of the demo's [main]: three wrong PINs, then the right
    one, which is refused. *)
Lemma locked_account_stays_locked_witness :
  let fmt_2f := λ _ : float, "0.00" in
  let p0 := NewBankAccountProxy "ACC123" 1000%float "1234" in
  let p3 := {| pin := "1234";
               realAccount := NewRealBankAccount "ACC123" 1000%float;
               attemptCount := 3; locked := true |} in
  (attempts fmt_2f p0 [("0000", 100%float); ("9999", 100%float);
                       ("5555", 100%float)] []).1
  = Done ([false; false; false], p3)
  ∧ (AuthenticateAndWithdraw fmt_2f p3 "1234" 100%float []).1
    = Done (false, p3).
Proof.
  intros fmt_2f p0 p3. split; [reflexivity|].
  exact (proj1 (locked_account_stays_locked fmt_2f p3 [] [] eq_refl)
           "1234" 100%float).
Defined.

(** *** More on the protection proxy *)

(** X1. For the role user and a query of at least six bytes, the query is
    forwarded exactly when it begins with SELECT or with select (no other
    spelling): the answer is then the real database's, and ACCESS_DENIED
    otherwise. *)
Theorem Query_user_granted_iff_select :
  ∀ (p : DatabaseProxy) (sql : string) (out : list string),
    userRole p = "user" →
    6 ≤ String.length sql →
    (Query p sql out).1
    = Done (if String.prefix "SELECT" sql || String.prefix "select" sql
            then "QUERY_RESULT" else "ACCESS_DENIED")
    ∧ ((Query p sql out).1 = Done "QUERY_RESULT"
       ↔ String.prefix "SELECT" sql = true ∨ String.prefix "select" sql = true).
Proof.
  intros p sql out Hrole Hlen.
  assert ((Query p sql out).1
          = Done (if String.prefix "SELECT" sql || String.prefix "select" sql
                  then "QUERY_RESULT" else "ACCESS_DENIED")) as Hres.
  { unfold Query, mbind, Exec_bind. cbn [Printf].
    rewrite checkAccess_user by done.
    by destruct (String.prefix "SELECT" sql || String.prefix "select" sql). }
  split; [exact Hres|]. rewrite Hres.
  destruct (String.prefix "SELECT" sql), (String.prefix "select" sql);
    cbn; naive_solver.
Qed.

Lemma Query_user_granted_iff_select_witness :
  (Query (mkDatabaseProxy "user" (mkRealDatabase "localhost:5432/mydb"))
         "SELECT * FROM products" []).1 = Done "QUERY_RESULT"
  ∧ (Query (mkDatabaseProxy "user" (mkRealDatabase "localhost:5432/mydb"))
           "Select * FROM products" []).1 = Done "ACCESS_DENIED".
Proof.
  split.
  - refine (proj1 (Query_user_granted_iff_select
              (mkDatabaseProxy "user" (mkRealDatabase "localhost:5432/mydb"))
              "SELECT * FROM products" [] eq_refl _)); cbn; lia.
  - refine (proj1 (Query_user_granted_iff_select
              (mkDatabaseProxy "user" (mkRealDatabase "localhost:5432/mydb"))
              "Select * FROM products" [] eq_refl _)); cbn; lia.
Defined.

(** X2. For a role that is neither admin nor user, every query, also one
    shorter than six bytes, is answered ACCESS_DENIED without a panic, and
    the console gets the two lines of the proxy only. *)
Theorem Query_other_role_denied :
  ∀ (p : DatabaseProxy) (sql : string) (out : list string),
    userRole p ≠ "admin" →
    userRole p ≠ "user" →
    Query p sql out
    = (Done "ACCESS_DENIED",
       out ++ [nl +:+ "[DatabaseProxy] User role: " +:+ userRole p
               +:+ " attempting query" +:+ nl;
               "[DatabaseProxy] ACCESS DENIED - Insufficient permissions"
               +:+ nl]).
Proof.
  intros p sql out Hadmin Huser.
  apply String.eqb_neq in Hadmin, Huser.
  unfold Query, checkAccess, mbind, Exec_bind. cbn [Printf].
  rewrite Hadmin, Huser. cbn. by rewrite <- app_assoc.
Qed.

Lemma Query_other_role_denied_witness :
  Query (mkDatabaseProxy "guest" (mkRealDatabase "localhost:5432/mydb"))
        "use" []
  = (Done "ACCESS_DENIED",
     [nl +:+ "[DatabaseProxy] User role: guest attempting query" +:+ nl;
      "[DatabaseProxy] ACCESS DENIED - Insufficient permissions" +:+ nl]).
Proof.
  apply (Query_other_role_denied
           (mkDatabaseProxy "guest" (mkRealDatabase "localhost:5432/mydb"))
           "use" []); discriminate.
Defined.

(** *** The virtual proxy *)

Lemma ImageProxy_Display_loaded (filename : string) (image : RealImage)
    (out : list string) :
  let p := {| ImageProxy_filename := filename; realImage := Some image |} in
  ImageProxy_Display p out
  = (Done p, out ++ ["[RealImage] Displaying image: "
                     +:+ RealImage_filename image +:+ nl]).
Proof. reflexivity. Qed.

Lemma displays_loaded (filename : string) (image : RealImage) (n : nat)
    (out : list string) :
  let p := {| ImageProxy_filename := filename; realImage := Some image |} in
  displays p n out
  = (Done p, out ++ replicate n ("[RealImage] Displaying image: "
                                 +:+ RealImage_filename image +:+ nl)).
Proof.
  intros p. revert out. induction n as [|n IH]; intros out.
  - cbn. by rewrite app_nil_r.
  - cbn [displays]. unfold mbind, Exec_bind.
    pose proof (ImageProxy_Display_loaded filename image out) as Hstep.
    fold p in Hstep. rewrite Hstep, IH, <- app_assoc. reflexivity.
Qed.

(** X3. Creating an image proxy loads nothing.  The first [Display] loads
    the image from disk, and however often the image is displayed after
    that, it is never loaded again: the console shows the loading lines once,
    followed by one display line per call. *)
Theorem image_loaded_once_on_first_display :
  ∀ (filename : string) (n : nat) (out : list string),
    let fresh := {| ImageProxy_filename := filename; realImage := None |} in
    let loaded := {| ImageProxy_filename := filename;
                     realImage := Some (mkRealImage filename) |} in
    let shown := "[RealImage] Displaying image: " +:+ filename +:+ nl in
    NewImageProxy filename out
    = (Done fresh,
       out ++ ["[ImageProxy] Created proxy for: " +:+ filename
               +:+ " (not loaded yet)" +:+ nl])
    ∧ displays fresh (S n) out
      = (Done loaded,
         out ++ ["[ImageProxy] First access - loading real image..." +:+ nl;
                 "[RealImage] Loading image from disk: " +:+ filename
                 +:+ " (expensive operation)" +:+ nl;
                 "[RealImage] Image loaded: " +:+ filename +:+ nl]
             ++ replicate (S n) shown)
    ∧ displays loaded n out = (Done loaded, out ++ replicate n shown).
Proof.
  intros filename n out fresh loaded shown. split_and!.
  - reflexivity.
  - cbn [displays]. unfold mbind at 1, Exec_bind at 1.
    assert (ImageProxy_Display fresh out
            = (Done loaded,
               (out ++ ["[ImageProxy] First access - loading real image..."
                        +:+ nl;
                        "[RealImage] Loading image from disk: " +:+ filename
                        +:+ " (expensive operation)" +:+ nl;
                        "[RealImage] Image loaded: " +:+ filename +:+ nl])
               ++ [shown])) as ->.
    { unfold ImageProxy_Display, NewRealImage, loadFromDisk, RealImage_Display,
        Println, Printf, mbind, Exec_bind; cbn.
      by rewrite <- !app_assoc. }
    rewrite (displays_loaded filename (mkRealImage filename) n).
    by rewrite <- !app_assoc.
  - apply (displays_loaded filename (mkRealImage filename) n).
Qed.

(** *** The caching proxy *)

Lemma Download_hit (p : CachedYouTubeProxy) (videoID data : string)
    (out : list string) :
  cache p !! videoID = Some data →
  Download p videoID out
  = (Done (data, p),
     out ++ [nl +:+ "[CachedYouTubeProxy] Request for video: " +:+ videoID
             +:+ nl;
             "[CachedYouTubeProxy] Cache HIT - returning cached data" +:+ nl]).
Proof.
  intros Hk. unfold Download, Printf, mbind, Exec_bind. rewrite Hk. cbn.
  by rewrite <- app_assoc.
Qed.

Lemma Download_miss (p : CachedYouTubeProxy) (videoID : string)
    (out : list string) :
  cache p !! videoID = None →
  Download p videoID out
  = (Done ("VIDEO_DATA_" +:+ videoID,
           {| downloader := downloader p;
              cache := <[videoID := "VIDEO_DATA_" +:+ videoID]> (cache p) |}),
     out ++ [nl +:+ "[CachedYouTubeProxy] Request for video: " +:+ videoID
             +:+ nl;
             "[CachedYouTubeProxy] Cache MISS - downloading from YouTube"
             +:+ nl;
             "[YouTubeDownloader] Downloading video " +:+ videoID
             +:+ " from YouTube (slow operation)..." +:+ nl;
             "[CachedYouTubeProxy] Cached video: " +:+ videoID +:+ nl]).
Proof.
  intros Hk.
  unfold Download, YouTubeDownloader_Download, Printf, mbind, Exec_bind.
  rewrite Hk. cbn. by rewrite <- !app_assoc.
Qed.

(** X4. Whatever the proxy holds, asking for the same video twice in a
    row gives the same data both times; the second call leaves the proxy as
    it is and writes only the request line and the cache-hit line, so the
    downloader is not called. *)
Theorem Download_twice_hits_cache :
  ∀ (p : CachedYouTubeProxy) (videoID : string) (out : list string),
    ∃ (data : string) (p1 : CachedYouTubeProxy) (out1 : list string),
      Download p videoID out = (Done (data, p1), out1)
      ∧ Download p1 videoID out1
        = (Done (data, p1),
           out1 ++ [nl +:+ "[CachedYouTubeProxy] Request for video: "
                    +:+ videoID +:+ nl;
                    "[CachedYouTubeProxy] Cache HIT - returning cached data"
                    +:+ nl]).
Proof.
  intros p videoID out.
  destruct (cache p !! videoID) as [data|] eqn:Hk.
  - eexists _, _, _. split; [by apply Download_hit|].
    by apply Download_hit.
  - eexists _, _, _. split; [by apply Download_miss|].
    apply Download_hit. cbn. apply lookup_insert_eq.
Qed.

Lemma downloads_cons (p : CachedYouTubeProxy) (videoID : string)
    (videoIDs : list string) (out : list string) :
  downloads p (videoID :: videoIDs) out =
    match Download p videoID out with
    | (Done (data, p'), out') =>
        match downloads p' videoIDs out' with
        | (Done (datas, p''), out'') => (Done (data :: datas, p''), out'')
        | (Panic msg, out'') => (Panic msg, out'')
        end
    | (Panic msg, out') => (Panic msg, out')
    end.
Proof.
  cbn [downloads]. unfold mbind, Exec_bind.
  destruct (Download _ _ _) as [[[data p']|msg] out']; [|done].
  by destruct (downloads _ _ _) as [[[datas p'']|msg] out''].
Qed.

Lemma download_lines_app (out more : list string) :
  download_lines (out ++ more) = download_lines out + download_lines more.
Proof. unfold download_lines. by rewrite filter_app, length_app. Qed.

Lemma download_lines_hit (videoID : string) :
  download_lines [nl +:+ "[CachedYouTubeProxy] Request for video: "
                  +:+ videoID +:+ nl;
                  "[CachedYouTubeProxy] Cache HIT - returning cached data"
                  +:+ nl] = 0.
Proof. reflexivity. Qed.

Lemma download_lines_miss (videoID : string) :
  download_lines [nl +:+ "[CachedYouTubeProxy] Request for video: "
                  +:+ videoID +:+ nl;
                  "[CachedYouTubeProxy] Cache MISS - downloading from YouTube"
                  +:+ nl;
                  "[YouTubeDownloader] Downloading video " +:+ videoID
                  +:+ " from YouTube (slow operation)..." +:+ nl;
                  "[CachedYouTubeProxy] Cached video: " +:+ videoID +:+ nl]
  = 1.
Proof. reflexivity. Qed.

(** Every entry of the cache is what the downloader returns for its key. *)
Lemma downloads_faithful (videoIDs : list string) (p : CachedYouTubeProxy)
    (out : list string) :
  (∀ k v, cache p !! k = Some v → v = "VIDEO_DATA_" +:+ k) →
  ∃ (p' : CachedYouTubeProxy) (out' : list string),
    downloads p videoIDs out
    = (Done (String.append "VIDEO_DATA_" <$> videoIDs, p'), out')
    ∧ (∀ k v, cache p' !! k = Some v → v = "VIDEO_DATA_" +:+ k)
    ∧ dom (cache p') = list_to_set videoIDs ∪ dom (cache p)
    ∧ download_lines out' + size (cache p)
      = download_lines out + size (cache p').
Proof.
  revert p out. induction videoIDs as [|videoID videoIDs IH]; intros p out Hp.
  { exists p, out. split_and!; [done|done|set_solver|done]. }
  rewrite downloads_cons.
  destruct (cache p !! videoID) as [data|] eqn:Hk.
  - rewrite (Download_hit p videoID data out Hk).
    destruct (IH p (out ++ [nl +:+ "[CachedYouTubeProxy] Request for video: "
                            +:+ videoID +:+ nl;
                            "[CachedYouTubeProxy] Cache HIT - returning cached data"
                            +:+ nl]) Hp)
      as (p' & out' & -> & Hp' & Hdom & Hcount).
    exists p', out'. rewrite (Hp _ _ Hk). split_and!; [done|done| |].
    + apply elem_of_dom_2 in Hk. rewrite Hdom. cbn. set_solver.
    + rewrite download_lines_app, download_lines_hit in Hcount. lia.
  - rewrite (Download_miss p videoID out Hk).
    match goal with |- context [downloads ?q videoIDs ?o] =>
      destruct (IH q o) as (p' & out' & -> & Hp' & Hdom & Hcount)
    end.
    { cbn. intros k v. rewrite lookup_insert.
      case_decide; [intros; by simplify_eq|apply Hp]. }
    exists p', out'. split_and!; [done|done| |].
    + rewrite Hdom. cbn. rewrite dom_insert_L. set_solver.
    + rewrite download_lines_app, download_lines_miss in Hcount. cbn in Hcount.
      rewrite map_size_insert_None in Hcount by done. lia.
Qed.

(** X5. From a new caching proxy, any sequence of requests returns for
    each video what the downloader returns for it, the cache ends up holding
    exactly the videos asked for, and the downloader was called once per
    distinct video: that many downloader lines were written. *)
Theorem downloads_once_per_video :
  ∀ (videoIDs : list string) (out : list string),
    ∃ (p' : CachedYouTubeProxy) (out' : list string),
      downloads NewCachedYouTubeProxy videoIDs out
      = (Done (String.append "VIDEO_DATA_" <$> videoIDs, p'), out')
      ∧ dom (cache p') = list_to_set videoIDs
      ∧ download_lines out'
        = download_lines out + size (list_to_set videoIDs : gset string).
Proof.
  intros videoIDs out.
  destruct (downloads_faithful videoIDs NewCachedYouTubeProxy out)
    as (p' & out' & Hrun & _ & Hdom & Hcount).
  { intros k v. cbn. by rewrite lookup_empty. }
  exists p', out'. cbn in Hdom, Hcount.
  rewrite dom_empty_L, (right_id_L ∅ (∪)) in Hdom.
  rewrite map_size_empty in Hcount.
  split_and!; [done|done|]. rewrite <- Hdom, size_dom. lia.
Qed.

(** *** The load balancer *)

Lemma requests_cons (p : LoadBalancerProxy) (url : string)
    (urls : list string) (out : list string) :
  requests p (url :: urls) out =
    match LoadBalancerProxy_Request p url out with
    | (Done (response, p'), out') =>
        match requests p' urls out' with
        | (Done (responses, p''), out'') =>
            (Done (response :: responses, p''), out'')
        | (Panic msg, out'') => (Panic msg, out'')
        end
    | (Panic msg, out') => (Panic msg, out')
    end.
Proof.
  cbn [requests]. unfold mbind, Exec_bind.
  destruct (LoadBalancerProxy_Request _ _ _) as [[[response p']|msg] out'];
    [|done].
  by destruct (requests _ _ _) as [[[responses p'']|msg] out''].
Qed.

Lemma wrap_int_small (z : Z) :
  (- 2 ^ 63 ≤ z < 2 ^ 63)%Z → wrap_int z = z.
Proof.
  intros Hz. unfold wrap_int. rewrite Z.mod_small; lia.
Qed.

Lemma LoadBalancerProxy_Request_step (p : LoadBalancerProxy) (k : nat)
    (server : RealServer) (url : string) (out : list string) :
  currentIndex p = Z.of_nat k →
  servers p !! k = Some server →
  (Z.of_nat (length (servers p)) < 2 ^ 63)%Z →
  LoadBalancerProxy_Request p url out
  = (Done ("Response from " +:+ RealServer_name server +:+ " for " +:+ url,
           {| servers := servers p;
              currentIndex := Z.of_nat (S k mod length (servers p)) |}),
     out ++ [nl +:+ "[LoadBalancerProxy] Routing request to "
             +:+ RealServer_name server +:+ " (Round-robin)" +:+ nl;
             "[RealServer " +:+ RealServer_name server
             +:+ "] Processing request: " +:+ url +:+ nl]).
Proof.
  intros Hidx Hserver Hlen.
  pose proof (lookup_lt_Some _ _ _ Hserver) as Hk.
  unfold LoadBalancerProxy_Request, index_at, int_rem, RealServer_Request,
    Printf, mbind, Exec_bind.
  rewrite Hidx, bool_decide_eq_false_2 by lia.
  rewrite Nat2Z.id, Hserver. cbn.
  rewrite bool_decide_eq_false_2 by lia. cbn.
  rewrite wrap_int_small by lia.
  rewrite <- app_assoc. cbn.
  rewrite Z.rem_mod_nonneg by lia.
  rewrite Nat2Z.inj_mod.
  replace (Z.of_nat (S k)) with (Z.of_nat k + 1)%Z by lia.
  reflexivity.
Qed.

(** The answer of the server at position [i], if there is one. *)
Lemma requests_round_robin (urls : list string) (p : LoadBalancerProxy)
    (k : nat) (out : list string) :
  currentIndex p = Z.of_nat k →
  k < length (servers p) →
  (Z.of_nat (length (servers p)) < 2 ^ 63)%Z →
  (requests p urls out).1
  = Done (imap (λ i url,
                  "Response from "
                  +:+ from_option RealServer_name EmptyString
                        (servers p !! ((k + i) mod length (servers p)))
                  +:+ " for " +:+ url) urls,
          {| servers := servers p;
             currentIndex :=
               Z.of_nat ((k + length urls) mod length (servers p)) |}).
Proof.
  revert p k out. induction urls as [|url urls IH]; intros p k out Hidx Hk Hlen.
  { cbn. rewrite Nat.add_0_r, Nat.mod_small by done.
    destruct p; cbn in *; by subst. }
  destruct (lookup_lt_is_Some_2 (servers p) k Hk) as [server Hserver].
  rewrite requests_cons.
  rewrite (LoadBalancerProxy_Request_step p k server url out) by done.
  set (p' := {| servers := servers p;
                currentIndex := Z.of_nat (S k mod length (servers p)) |}).
  specialize (IH p' (S k mod length (servers p))
                (out ++ [nl +:+ "[LoadBalancerProxy] Routing request to "
                         +:+ RealServer_name server +:+ " (Round-robin)"
                         +:+ nl;
                         "[RealServer " +:+ RealServer_name server
                         +:+ "] Processing request: " +:+ url +:+ nl])
                eq_refl).
  cbn [servers p'] in IH.
  assert (S k mod length (servers p) < length (servers p)) as Hk'
    by (apply Nat.mod_upper_bound; lia).
  specialize (IH Hk' Hlen).
  destruct (requests p' urls _) as [[[responses p'']|msg] out''];
    cbn in IH; [|done].
  injection IH as -> ->. cbn [fst imap]. f_equal. f_equal.
  - f_equal.
    + rewrite Nat.add_0_r, Nat.mod_small, Hserver by done. reflexivity.
    + apply imap_ext. intros i u _. cbn.
      replace ((S k mod length (servers p) + i) mod length (servers p))
        with ((k + S i) mod length (servers p)); [done|].
      rewrite Nat.Div0.add_mod_idemp_l. f_equal. lia.
  - f_equal. f_equal. cbn [length].
    rewrite Nat.Div0.add_mod_idemp_l. f_equal. lia.
Qed.

(** X6. A load balancer whose index points into its list of servers
    serves requests round robin without ever panicking: the request number
    [i] (from zero) is answered by the server [i] places after the current
    one, wrapping around at the end of the list, and the index is left that
    far on. *)
Theorem LoadBalancer_round_robin :
  ∀ (p : LoadBalancerProxy) (k : nat) (urls : list string)
    (out : list string),
    currentIndex p = Z.of_nat k →
    k < length (servers p) →
    (Z.of_nat (length (servers p)) < 2 ^ 63)%Z →
    ∃ (responses : list string) (p' : LoadBalancerProxy),
      (requests p urls out).1 = Done (responses, p')
      ∧ length responses = length urls
      ∧ servers p' = servers p
      ∧ currentIndex p' = Z.of_nat ((k + length urls) mod length (servers p))
      ∧ ∀ (i : nat) (url : string),
          urls !! i = Some url →
          ∃ server : RealServer,
            servers p !! ((k + i) mod length (servers p)) = Some server
            ∧ responses !! i
              = Some ("Response from " +:+ RealServer_name server
                      +:+ " for " +:+ url).
Proof.
  intros p k urls out Hidx Hk Hlen.
  eexists _, _. split; [by apply (requests_round_robin urls p k out)|].
  split_and!; [by rewrite length_imap|done|done|].
  intros i url Hurl.
  assert ((k + i) mod length (servers p) < length (servers p)) as Hi
    by (apply Nat.mod_upper_bound; lia).
  destruct (lookup_lt_is_Some_2 _ _ Hi) as [server Hserver].
  exists server. split; [done|].
  rewrite list_lookup_imap, Hurl. cbn. by rewrite Hserver.
Qed.

Lemma LoadBalancer_round_robin_witness :
  ∃ (responses : list string) (p' : LoadBalancerProxy),
    (requests NewLoadBalancerProxy
              ["/api/users"; "/api/products"; "/api/orders"; "/api/payments"]
              []).1 = Done (responses, p')
    ∧ length responses = 4
    ∧ servers p' = servers NewLoadBalancerProxy
    ∧ currentIndex p' = 1%Z
    ∧ ∀ (i : nat) (url : string),
        ["/api/users"; "/api/products"; "/api/orders"; "/api/payments"] !! i
        = Some url →
        ∃ server : RealServer,
          servers NewLoadBalancerProxy !! ((0 + i) mod 3) = Some server
          ∧ responses !! i
            = Some ("Response from " +:+ RealServer_name server
                    +:+ " for " +:+ url).
Proof.
  apply (LoadBalancer_round_robin NewLoadBalancerProxy 0
           ["/api/users"; "/api/products"; "/api/orders"; "/api/payments"]
           []); [reflexivity|cbn; lia|cbn; lia].
Defined.

(** *** More on the bank account *)

Lemma AuthenticateAndWithdraw_right_pin fmt_2f p amount out :
  locked p = false →
  (AuthenticateAndWithdraw fmt_2f p (pin p) amount out).1
  = Done (PrimFloat.leb amount (balance (realAccount p)),
          {| pin := pin p;
             realAccount :=
               if PrimFloat.leb amount (balance (realAccount p))
               then {| accountNumber := accountNumber (realAccount p);
                       balance := PrimFloat.sub (balance (realAccount p))
                                                amount |}
               else realAccount p;
             attemptCount := 0;
             locked := false |}).
Proof.
  intros Hlocked. unfold AuthenticateAndWithdraw. rewrite Hlocked.
  rewrite String.eqb_refl.
  unfold BankAccountProxy_Withdraw, Withdraw, Println, Printf, mbind,
    Exec_bind; cbn.
  by destruct (PrimFloat.leb amount (balance (realAccount p))).
Qed.

(** X7. A wrong PIN never reaches the account: whatever the state of the
    proxy, the attempt returns false and the real account (number and
    balance) is what it was. *)
Theorem wrong_pin_leaves_account :
  ∀ (fmt_2f : float → string) (p : BankAccountProxy) (enteredPin : string)
    (amount : float) (out : list string),
    enteredPin ≠ pin p →
    ∃ p' : BankAccountProxy,
      (AuthenticateAndWithdraw fmt_2f p enteredPin amount out).1
      = Done (false, p')
      ∧ realAccount p' = realAccount p
      ∧ pin p' = pin p.
Proof.
  intros fmt_2f p enteredPin amount out Hpin.
  destruct (locked p) eqn:Hlocked.
  - exists p. by rewrite AuthenticateAndWithdraw_locked.
  - eexists. split; [by apply AuthenticateAndWithdraw_wrong_pin|done].
Qed.

Lemma wrong_pin_leaves_account_witness :
  ∃ p' : BankAccountProxy,
    (AuthenticateAndWithdraw (λ _ : float, "0.00")
       (NewBankAccountProxy "ACC123" 1000%float "1234") "0000" 100%float
       []).1 = Done (false, p')
    ∧ realAccount p'
      = realAccount (NewBankAccountProxy "ACC123" 1000%float "1234")
    ∧ pin p' = "1234".
Proof.
  apply (wrong_pin_leaves_account (λ _ : float, "0.00")
           (NewBankAccountProxy "ACC123" 1000%float "1234") "0000"
           100%float []).
  discriminate.
Defined.

(** X8. On an account that is not locked, the right PIN hands the
    request to the account and clears the count of failed attempts, whether
    or not the withdrawal goes through: the attempt returns true and the
    balance goes down by the amount when the balance covers it, and returns
    false with the balance unchanged when it does not. *)
Theorem right_pin_withdraws_and_clears_count :
  ∀ (fmt_2f : float → string) (p : BankAccountProxy) (amount : float)
    (out : list string),
    locked p = false →
    ∃ (ok : bool) (p' : BankAccountProxy),
      (AuthenticateAndWithdraw fmt_2f p (pin p) amount out).1
      = Done (ok, p')
      ∧ ok = PrimFloat.leb amount (balance (realAccount p))
      ∧ BankAccountProxy_GetBalance p'
        = (if ok then PrimFloat.sub (balance (realAccount p)) amount
           else balance (realAccount p))
      ∧ attemptCount p' = 0%Z
      ∧ locked p' = false.
Proof.
  intros fmt_2f p amount out Hlocked.
  eexists _, _. split; [by apply AuthenticateAndWithdraw_right_pin|].
  split_and!; try done.
  unfold BankAccountProxy_GetBalance, GetBalance; cbn.
  by destruct (PrimFloat.leb amount (balance (realAccount p))).
Qed.

Lemma right_pin_withdraws_and_clears_count_witness :
  ∃ (ok : bool) (p' : BankAccountProxy),
    (AuthenticateAndWithdraw (λ _ : float, "0.00")
       {| pin := "1234";
          realAccount := NewRealBankAccount "ACC123" 1000%float;
          attemptCount := 2; locked := false |} "1234" 2000%float []).1
    = Done (ok, p')
    ∧ ok = PrimFloat.leb 2000%float 1000%float
    ∧ BankAccountProxy_GetBalance p'
      = (if ok then PrimFloat.sub 1000%float 2000%float else 1000%float)
    ∧ attemptCount p' = 0%Z
    ∧ locked p' = false.
Proof.
  exact (right_pin_withdraws_and_clears_count (λ _ : float, "0.00")
           {| pin := "1234";
              realAccount := NewRealBankAccount "ACC123" 1000%float;
              attemptCount := 2; locked := false |} 2000%float [] eq_refl).
Defined.

(** X9. Whatever attempts are made on a new account, none panics, and
    after them the count of failed attempts is between 0 and 3, the account
    is locked exactly when the count is 3, and PIN and account number are
    those given at creation. *)
Theorem attempts_keep_counter_in_range :
  ∀ (fmt_2f : float → string) (accountNumber0 : string) (balance0 : float)
    (pin0 : string) (calls : list (string * float)) (out : list string),
    ∃ (oks : list bool) (p' : BankAccountProxy),
      (attempts fmt_2f (NewBankAccountProxy accountNumber0 balance0 pin0)
                calls out).1 = Done (oks, p')
      ∧ length oks = length calls
      ∧ (0 ≤ attemptCount p' ≤ 3)%Z
      ∧ (locked p' = true ↔ attemptCount p' = 3%Z)
      ∧ pin p' = pin0
      ∧ accountNumber (realAccount p') = accountNumber0.
Proof.
  intros fmt_2f accountNumber0 balance0 pin0 calls out.
  assert (∀ (p : BankAccountProxy) (out : list string),
            (0 ≤ attemptCount p ≤ 3)%Z →
            (locked p = true ↔ attemptCount p = 3%Z) →
            ∃ (oks : list bool) (p' : BankAccountProxy),
              (attempts fmt_2f p calls out).1 = Done (oks, p')
              ∧ length oks = length calls
              ∧ (0 ≤ attemptCount p' ≤ 3)%Z
              ∧ (locked p' = true ↔ attemptCount p' = 3%Z)
              ∧ pin p' = pin p
              ∧ accountNumber (realAccount p')
                = accountNumber (realAccount p)) as Hgen.
  { clear out. induction calls as [|[enteredPin amount] calls IH];
      intros p out Hrange Hlock.
    { exists [], p. split_and!; try done; lia. }
    rewrite attempts_cons.
    assert (∃ (ok : bool) (p1 : BankAccountProxy),
              (AuthenticateAndWithdraw fmt_2f p enteredPin amount out).1
              = Done (ok, p1)
              ∧ (0 ≤ attemptCount p1 ≤ 3)%Z
              ∧ (locked p1 = true ↔ attemptCount p1 = 3%Z)
              ∧ pin p1 = pin p
              ∧ accountNumber (realAccount p1)
                = accountNumber (realAccount p))
      as (ok & p1 & Hstep & Hrange1 & Hlock1 & Hpin1 & Hacct1).
    { destruct (locked p) eqn:Hlocked.
      - exists false, p. rewrite AuthenticateAndWithdraw_locked by done.
        split_and!; try done; try lia. by rewrite Hlocked.
      - assert (attemptCount p ≠ 3%Z) as Hne by (intros ?; naive_solver).
        destruct (decide (enteredPin = pin p)) as [->|Hwrong].
        + eexists _, _.
          split; [by apply AuthenticateAndWithdraw_right_pin|].
          cbn. split_and!; [lia|lia|naive_solver|done|].
          by destruct (PrimFloat.leb amount (balance (realAccount p))).
        + eexists _, _.
          split; [by apply AuthenticateAndWithdraw_wrong_pin|].
          cbn. rewrite wrap_int_small by lia.
          split_and!; [lia|lia| |done|done].
          rewrite bool_decide_eq_true. lia. }
    destruct (AuthenticateAndWithdraw fmt_2f p enteredPin amount out)
      as [o1 out1]. cbn in Hstep. subst o1.
    destruct (IH p1 out1 Hrange1 Hlock1)
      as (oks & p' & Hrun & Hlen & Hrange' & Hlock' & Hpin' & Hacct').
    destruct (attempts fmt_2f p1 calls out1) as [o2 out2].
    cbn in Hrun. subst o2.
    exists (ok :: oks), p'. cbn.
    split_and!; [done|by rewrite Hlen|lia|lia|done|congruence|congruence]. }
  apply Hgen; cbn; [lia|naive_solver].
Qed.

(** X10. The proxy's own [Withdraw] asks for no PIN and does not look at
    the lock: on a locked account whose balance covers the amount it returns
    true and takes the amount off the balance. *)
Theorem Withdraw_ignores_lock :
  ∀ (fmt_2f : float → string) (p : BankAccountProxy) (amount : float)
    (out : list string),
    locked p = true →
    PrimFloat.leb amount (balance (realAccount p)) = true →
    ∃ p' : BankAccountProxy,
      (BankAccountProxy_Withdraw fmt_2f p amount out).1 = Done (true, p')
      ∧ BankAccountProxy_GetBalance p'
        = PrimFloat.sub (balance (realAccount p)) amount
      ∧ locked p' = true
      ∧ (AuthenticateAndWithdraw fmt_2f p (pin p) amount out).1
        = Done (false, p).
Proof.
  intros fmt_2f p amount out Hlocked Hcovers.
  eexists. split_and!.
  - unfold BankAccountProxy_Withdraw, Withdraw, Printf, mbind, Exec_bind.
    rewrite Hcovers. reflexivity.
  - reflexivity.
  - exact Hlocked.
  - by rewrite AuthenticateAndWithdraw_locked.
Qed.

Lemma Withdraw_ignores_lock_witness :
  ∃ p' : BankAccountProxy,
    (BankAccountProxy_Withdraw (λ _ : float, "0.00")
       {| pin := "1234";
          realAccount := NewRealBankAccount "ACC123" 1000%float;
          attemptCount := 3; locked := true |} 100%float []).1
    = Done (true, p')
    ∧ BankAccountProxy_GetBalance p' = PrimFloat.sub 1000%float 100%float
    ∧ locked p' = true
    ∧ (AuthenticateAndWithdraw (λ _ : float, "0.00")
         {| pin := "1234";
            realAccount := NewRealBankAccount "ACC123" 1000%float;
            attemptCount := 3; locked := true |} "1234" 100%float []).1
      = Done (false,
              {| pin := "1234";
                 realAccount := NewRealBankAccount "ACC123" 1000%float;
                 attemptCount := 3; locked := true |}).
Proof.
  exact (Withdraw_ignores_lock (λ _ : float, "0.00")
           {| pin := "1234";
              realAccount := NewRealBankAccount "ACC123" 1000%float;
              attemptCount := 3; locked := true |} 100%float []
           eq_refl eq_refl).
Defined.

End ProxySpec.

(** ** The file system of the composite demo *)

Module CompositeSpec.
Import Composite.

Lemma wrap_int64_small (z : Z) :
  (- 2 ^ 63 ≤ z < 2 ^ 63)%Z → wrap_int64 z = z.
Proof. intros Hz. unfold wrap_int64. rewrite Z.mod_small; lia. Qed.

Lemma wrap_int64_add_l (a b : Z) :
  wrap_int64 (wrap_int64 a + b) = wrap_int64 (a + b).
Proof.
  unfold wrap_int64. f_equal.
  replace ((a + 2 ^ 63) `mod` 2 ^ 64 - 2 ^ 63 + b + 2 ^ 63)%Z
    with ((a + 2 ^ 63) `mod` 2 ^ 64 + b)%Z by lia.
  rewrite Zplus_mod_idemp_l. f_equal. lia.
Qed.

Lemma wrap_int64_add_r (a b : Z) :
  wrap_int64 (a + wrap_int64 b) = wrap_int64 (a + b).
Proof. by rewrite (Z.add_comm a), wrap_int64_add_l, Z.add_comm. Qed.

Lemma total_app (l k : list Z) : total (l ++ k) = (total l + total k)%Z.
Proof. unfold total. induction l as [|x l IH]; cbn; lia. Qed.

(** The loop of [GetSize], with the wrap-around taken once at the end. *)
Lemma GetSize_loop (cs : list FileSystemComponent) (acc : Z) :
  Forall (λ c, GetSize c = wrap_int64 (total (file_sizes c))) cs →
  wrap_int64
    (fold_left (λ totalSize child, wrap_int64 (totalSize + GetSize child))
               cs acc)
  = wrap_int64 (acc + total (concat (map file_sizes cs))).
Proof.
  intros Hcs. revert acc.
  induction Hcs as [|c cs Hc _ IH]; intros acc.
  - cbn. by rewrite Z.add_0_r.
  - cbn [fold_left map concat]. rewrite IH, total_app, Hc.
    rewrite wrap_int64_add_l.
    replace (acc + wrap_int64 (total (file_sizes c))
             + total (concat (map file_sizes cs)))%Z
      with (acc + total (concat (map file_sizes cs))
            + wrap_int64 (total (file_sizes c)))%Z by lia.
    rewrite wrap_int64_add_r. f_equal. lia.
Qed.

Lemma GetSize_loop_wrapped (cs : list FileSystemComponent) :
  wrap_int64
    (fold_left (λ totalSize child, wrap_int64 (totalSize + GetSize child))
               cs 0%Z)
  = fold_left (λ totalSize child, wrap_int64 (totalSize + GetSize child))
              cs 0%Z.
Proof.
  induction cs as [|c cs IH] using rev_ind; [done|].
  rewrite fold_left_app. cbn.
  unfold wrap_int64 at 1 3.
  set (z := (_ + GetSize c)%Z).
  apply wrap_int64_small.
  pose proof (Z.mod_pos_bound (z + 2 ^ 63) (2 ^ 64)). unfold wrap_int64. lia.
Qed.

(** X14. The size of a component is the sum of the sizes of all files in
    it and below it, reduced to the range of [int64]: wrap-arounds in the
    middle of the additions do not matter.  Where the sum is in range, the
    size is the sum. *)
Theorem GetSize_is_wrapped_total :
  ∀ c : FileSystemComponent,
    Forall (λ size, - 2 ^ 63 ≤ size < 2 ^ 63)%Z (file_sizes c) →
    GetSize c = wrap_int64 (total (file_sizes c))
    ∧ ((- 2 ^ 63 ≤ total (file_sizes c) < 2 ^ 63)%Z →
       GetSize c = total (file_sizes c)).
Proof.
  intros c Hrange.
  assert (GetSize c = wrap_int64 (total (file_sizes c))) as Hsize.
  { revert Hrange.
    apply (component_induction
             (λ c, Forall (λ size, - 2 ^ 63 ≤ size < 2 ^ 63)%Z (file_sizes c)
                   → GetSize c = wrap_int64 (total (file_sizes c)))
             (λ d, Forall (λ size, - 2 ^ 63 ≤ size < 2 ^ 63)%Z
                          (Directory_file_sizes d)
                   → Directory_GetSize d
                     = wrap_int64 (total (Directory_file_sizes d)))).
    - intros f Hf. cbn [file_sizes GetSize File_GetSize] in *.
      rewrite Forall_singleton in Hf.
      unfold total; cbn [foldr]. rewrite Z.add_0_r.
      symmetry. apply wrap_int64_small, Hf.
    - done.
    - intros name cs IH Hcs. cbn [Directory_GetSize Directory_file_sizes] in *.
      rewrite <- GetSize_loop_wrapped. rewrite GetSize_loop; [done|].
      clear -IH Hcs. induction IH as [|c cs Hc _ IHcs]; [done|].
      cbn [map concat] in Hcs. apply Forall_app in Hcs as [Hc1 Hcs1].
      constructor; auto. }
  split; [done|]. intros Htotal. by rewrite Hsize, wrap_int64_small.
Qed.

Lemma GetSize_is_wrapped_total_witness :
  GetSize (IsDirectory demo_root) = wrap_int64 32512
  ∧ ((- 2 ^ 63 ≤ 32512 < 2 ^ 63)%Z → GetSize (IsDirectory demo_root) = 32512%Z).
Proof.
  apply (GetSize_is_wrapped_total (IsDirectory demo_root)).
  refine (bool_decide_unpack _ _). vm_compute. exact I.
Defined.

Lemma remove_named_find (name : string) (cs : list FileSystemComponent) :
  remove_named name cs
  = match list_find (λ child, GetName child = name) cs with
    | Some (i, _) => delete i cs
    | None => cs
    end.
Proof.
  induction cs as [|c cs IH]; [done|].
  cbn [remove_named list_find].
  destruct (String.eqb_spec (GetName c) name) as [Heq|Hne].
  - by rewrite decide_True.
  - rewrite decide_False by done. rewrite IH.
    by destruct (list_find _ cs) as [[i child]|].
Qed.

(** X15. [Remove] goes by name: it takes out the first child whose name
    is that of the component given, whether or not it is that component, and
    leaves the other children in their order; a directory with no child of
    that name is left as it is.  The name of the directory stays. *)
Theorem Remove_first_child_of_that_name :
  ∀ (d : Directory) (component : FileSystemComponent),
    Directory_GetName (Remove d component) = Directory_GetName d
    ∧ children (Remove d component)
      = match list_find (λ child, GetName child = GetName component)
                        (children d) with
        | Some (i, _) => delete i (children d)
        | None => children d
        end.
Proof.
  intros d component. split; [done|]. apply remove_named_find.
Qed.

(** X16. Adding a component and removing it again gives the directory
    back only if no child had the name of the component; if one had, the
    first such child is taken out instead and the added component stays. *)
Theorem Remove_after_Add :
  ∀ (d : Directory) (component : FileSystemComponent),
    Remove (Add d component) component
    = match list_find (λ child, GetName child = GetName component)
                      (children d) with
      | None => d
      | Some (i, _) =>
          Add (mkDirectory (Directory_name d) (delete i (children d)))
              component
      end.
Proof.
  intros [name cs] component. unfold Remove, Add. cbn.
  rewrite remove_named_find.
  destruct (list_find _ cs) as [[i child]|] eqn:Hfind.
  - pose proof Hfind as Hfind'.
    apply list_find_Some in Hfind' as (Hi & _ & _).
    rewrite (list_find_app_l _ _ _ _ _ Hfind).
    f_equal. apply lookup_lt_Some in Hi.
    clear Hfind. revert i Hi.
    induction cs as [|c cs IH]; intros [|i] Hi;
      cbn in *; try lia; [done|]. f_equal. apply IH. lia.
  - rewrite list_find_app_r by done. cbn.
    rewrite decide_True by done. cbn.
    f_equal.
    clear. induction cs as [|c cs IH]; cbn; [done|]. by f_equal.
Qed.

Lemma prefix_append (a b : string) : String.prefix a (a +:+ b) = true.
Proof.
  induction a as [|c a IH]; simpl; [by destruct b|].
  destruct (Ascii.ascii_dec c c); [exact IH|congruence].
Qed.

Lemma prefix_weaken (a b l : string) :
  String.prefix (a +:+ b) l = true → String.prefix a l = true.
Proof.
  revert l. induction a as [|c a IH]; intros l Hpre; [by destruct l|].
  destruct l as [|c' l]; simpl in *; [done|].
  destruct (Ascii.ascii_dec c c'); [by apply IH|done].
Qed.









End CompositeSpec.

(** ** The data sources of the decorator demo *)

Module DecoratorSpec.
Import Decorator StringFacts.

Lemma TrimPrefix_append (a b : string) : TrimPrefix (a +:+ b) a = b.
Proof.
  unfold TrimPrefix, HasPrefix.
  rewrite length_append, bool_decide_eq_true_2 by lia.
  rewrite substring_append_l, String.eqb_refl. cbn.
  replace (String.length a + String.length b - String.length a)
    with (String.length b) by lia.
  apply substring_append_r.
Qed.

Lemma TrimSuffix_append (a b : string) : TrimSuffix (a +:+ b) b = a.
Proof.
  unfold TrimSuffix, HasSuffix.
  rewrite length_append, bool_decide_eq_true_2 by lia.
  replace (String.length a + String.length b - String.length b)
    with (String.length a) by lia.
  rewrite substring_append_r, String.eqb_refl. cbn.
  apply substring_append_l.
Qed.

Lemma decrypt_encrypt (data : string) : decrypt (encrypt data) = data.
Proof.
  unfold decrypt, encrypt.
  rewrite <- append_assoc, TrimSuffix_append. apply TrimPrefix_append.
Qed.

Lemma decompress_compress (data : string) :
  decompress (compress data) = data.
Proof.
  unfold decompress, compress.
  rewrite <- append_assoc, TrimSuffix_append. apply TrimPrefix_append.
Qed.

Lemma WriteData_EncryptionDecorator wrappee data out :
  WriteData (EncryptionDecorator wrappee) data out =
    let r := WriteData wrappee (encrypt data)
               (out ++ ["[EncryptionDecorator] Encrypting data" +:+ nl]) in
    (EncryptionDecorator r.1, r.2).
Proof.
  cbn [WriteData]. unfold mbind, State_bind, Printf, mret, State_ret.
  by destruct (WriteData wrappee _ _).
Qed.

Lemma WriteData_CompressionDecorator wrappee data out :
  WriteData (CompressionDecorator wrappee) data out =
    let r := WriteData wrappee (compress data)
               (out ++ ["[CompressionDecorator] Compressing data" +:+ nl]) in
    (CompressionDecorator r.1, r.2).
Proof.
  cbn [WriteData]. unfold mbind, State_bind, Printf, mret, State_ret.
  by destruct (WriteData wrappee _ _).
Qed.

Lemma ReadData_EncryptionDecorator wrappee out :
  ReadData (EncryptionDecorator wrappee) out =
    let r := ReadData wrappee out in
    (decrypt r.1, r.2 ++ ["[EncryptionDecorator] Decrypting data" +:+ nl]).
Proof.
  cbn [ReadData]. unfold mbind, State_bind, Printf, mret, State_ret.
  by destruct (ReadData wrappee _).
Qed.

Lemma ReadData_CompressionDecorator wrappee out :
  ReadData (CompressionDecorator wrappee) out =
    let r := ReadData wrappee out in
    (decompress r.1, r.2 ++ ["[CompressionDecorator] Decompressing data" +:+ nl]).
Proof.
  cbn [ReadData]. unfold mbind, State_bind, Printf, mret, State_ret.
  by destruct (ReadData wrappee _).
Qed.

(** X18. Whatever stack of encryption and compression decorators is put
    around a file, and whatever the file held before, what is written
    through the stack is what is read back through it; writing changes
    neither the stack nor the name of the file. *)
Theorem ReadData_after_WriteData :
  ∀ (s : DataSource) (data : string) (out : list string),
    let written := WriteData s data out in
    (∀ out', (ReadData written.1 out').1 = data)
    ∧ filename (file_of written.1) = filename (file_of s).
Proof.
  induction s as [f|wrappee IH|wrappee IH]; intros data out.
  - by split.
  - cbn zeta. rewrite WriteData_EncryptionDecorator. cbn [fst snd].
    destruct (IH (encrypt data)
                 (out ++ ["[EncryptionDecorator] Encrypting data" +:+ nl]))
      as [Hread Hname].
    split; [|exact Hname]. intros out'.
    rewrite ReadData_EncryptionDecorator. cbn [fst].
    rewrite Hread. apply decrypt_encrypt.
  - cbn zeta. rewrite WriteData_CompressionDecorator. cbn [fst snd].
    destruct (IH (compress data)
                 (out ++ ["[CompressionDecorator] Compressing data" +:+ nl]))
      as [Hread Hname].
    split; [|exact Hname]. intros out'.
    rewrite ReadData_CompressionDecorator. cbn [fst].
    rewrite Hread. apply decompress_compress.
Qed.

Lemma ReadData_unwritten (s : DataSource) (out : list string) :
  data (file_of s) = EmptyString → (ReadData s out).1 = EmptyString.
Proof.
  revert out. induction s as [f|wrappee IH|wrappee IH]; intros out Hempty.
  - exact Hempty.
  - rewrite ReadData_EncryptionDecorator. cbn [fst].
    by rewrite IH.
  - rewrite ReadData_CompressionDecorator. cbn [fst].
    by rewrite IH.
Qed.

(** X19. Reading a source whose file is empty, as a new file is, gives
    the empty string through any stack of decorators: taking the markers
    off a string that does not carry them leaves the string alone. *)
Theorem ReadData_of_empty_file :
  ∀ (s : DataSource) (out : list string),
    data (file_of s) = EmptyString →
    (ReadData s out).1 = EmptyString.
Proof. intros s out. apply ReadData_unwritten. Qed.

Lemma ReadData_of_empty_file_witness :
  (ReadData (NewEncryptionDecorator
               (NewCompressionDecorator
                  (IsFileDataSource (NewFileDataSource "secure.txt")))) []).1
  = EmptyString.
Proof.
  apply (ReadData_of_empty_file
           (NewEncryptionDecorator
              (NewCompressionDecorator
                 (IsFileDataSource (NewFileDataSource "secure.txt")))) []).
  reflexivity.
Defined.

End DecoratorSpec.
